(** * Wallpaper normalisation (resize.py): shape classification and selection

    A shallow embedding of [resize.py] and the properties of its
    shape arithmetic.

    Conventions of the embedding.
    - A shape is the pair (height, width), as in [image.shape[:2]]; a ratio
      is the pair (rw, rh), as in the [--ratio] option.
    - A raised exception is a [Raise] result; the calls of [cv2.imwrite]
      are collected in a trace.  Console output is not modelled.
    - The arithmetic of the script is read twice.  In the exact reading
      ([true_div], [is_good_ratio], [is_resizable], [get_closest_shape],
      [compute_all_valid_shapes] and the batch loop [main] built on them)
      integers are [Z] and a quotient is the exact rational in [Q]; the
      order of the calls, the indexing, the slicing and the writes are
      verified on it.  In the machine reading (module [Machine]) [/]
      returns the binary64 number nearest to the quotient ([b64_round],
      proved nearest in [b64_round_nearest]) or raises [OverflowError],
      numpy divides in float64 and its integer arrays are signed 64-bit
      integers that wrap ([wrap64]); what depends on rounding or on
      overflow is settled on it.
    - The two readings agree on [is_good_ratio] for a dividend below 2^53
      ([machine_is_good_ratio_exact]), on the squared distances and on
      the margins of the crop for dimensions below 2^31
      ([sq_dist64_small], [machine_crop_to_exact]) and on the valid shapes
      for dimensions and ratios below 2^31 ([machine_compute_multiples]).
      They
      part on [is_resizable], whose comparison sees the rounding of both
      quotients ([machine_is_resizable_rounds]). *)

From Stdlib Require Import ZArith QArith Qminmax Qabs Lia Lqa.
From stdpp Require Import gmap strings list sorting.

Local Open Scope Z_scope.

(** ** Results of fallible code *)

Inductive exn : Set :=
| ZeroDivisionError
| OverflowError
| FloatingPointError
| ValueError
| IndexError
| UnboundLocalError
| AttributeError
| Cv2Error.

Inductive result (A : Type) : Type :=
| Ok (a : A)
| Raise (e : exn).
Arguments Ok {A} a.
Arguments Raise {A} e.

#[export] Instance result_ret : MRet result := fun A a => Ok a.
#[export] Instance result_bind : MBind result := fun A B f m =>
  match m with
  | Ok a => f a
  | Raise e => Raise e
  end.

Ltac simpl_result :=
  repeat (unfold mret, mbind, result_ret, result_bind in *; cbn beta iota in *).

(** ** Shapes and ratios *)

(** (height, width) *)
Abbreviation shape := (Z * Z)%type.

(** (rw, rh) *)
Abbreviation ratio := (Z * Z)%type.

(** [a / b] on Python integers, as the exact quotient. *)
Definition true_div (a b : Z) : result Q :=
  if b =? 0 then Raise ZeroDivisionError
  else Ok (inject_Z a / inject_Z b)%Q.

(** [int(q)], [q.astype(int)]: truncation toward zero. *)
Definition int_of (q : Q) : Z := Z.quot (Qnum q) (Zpos (Qden q)).

(** ** Ratio classifier *)

(** [is_good_ratio], resize.py lines 25-31, on the exact quotient. *)
Definition is_good_ratio (width height : Z) (r : ratio) : result bool :=
  q ← true_div (height * r.1) r.2;
  mret (width =? int_of q).

(** [is_resizable], resize.py lines 34-41, on the exact quotients.  No
    property of this reading depends on where exactly the margin cuts. *)
Definition is_resizable (width height : Z) (margin : Q) (r : ratio)
  : result bool :=
  a ← true_div width height;
  b ← true_div r.1 r.2;
  mret (Qle_bool (Qabs (a - b)) margin).

Inductive outcome : Set := Conforming | Resizable | CropRequired.

(** The [if]/[elif]/[else] of the loop of [main], resize.py lines
    141-152: the second test is only evaluated when the first fails. *)
Definition classify (width height : Z) (r : ratio) (margin : Q)
  : result outcome :=
  good ← is_good_ratio width height r;
  if good : bool then mret Conforming
  else
    resizable ← is_resizable width height margin r;
    mret (if resizable : bool then Resizable else CropRequired).

(** ** Python and numpy sequence operations *)

(** [l[i]]: a negative index counts from the end. *)
Definition getitem {A : Type} (l : list A) (i : Z) : result A :=
  let n := Z.of_nat (length l) in
  let j := if i <? 0 then i + n else i in
  if (0 <=? j) && (j <? n) then
    match l !! Z.to_nat j with
    | Some x => Ok x
    | None => Raise IndexError
    end
  else Raise IndexError.

(** [np.arange(start, stop)] *)
Definition arange (start stop : Z) : list Z :=
  map (fun i => start + Z.of_nat i) (seq 0 (Z.to_nat (stop - start))).

(** [np.max] of the entries of an array. *)
Definition np_max (l : list Q) : result Q :=
  match l with
  | [] => Raise ValueError
  | x :: l' => Ok (foldl Qmax x l')
  end.

(** The scan of [argmin]: [best] is the least value seen so far, [best_i]
    the first index where it occurs, [i] the index of the head of [l]. *)
Fixpoint argmin_from (l : list Z) (i : nat) (best : Z) (best_i : nat) : nat :=
  match l with
  | [] => best_i
  | x :: l' =>
      if x <? best then argmin_from l' (S i) x i
      else argmin_from l' (S i) best best_i
  end.

(** [a.argmin()]: the first index of the least entry. *)
Definition argmin (l : list Z) : result nat :=
  match l with
  | [] => Raise ValueError
  | x :: l' => Ok (argmin_from l' 1 x 0)
  end.

(** ** Shape selection and enumeration *)

(** [np.sum(np.square(valid_shapes - bad_shape), axis=1)], one row, in
    unbounded integers. *)
Definition sq_dist (bad_shape valid_shape : shape) : Z :=
  (valid_shape.1 - bad_shape.1) ^ 2 + (valid_shape.2 - bad_shape.2) ^ 2.

(** [get_closest_shape], resize.py lines 44-56, in exact arithmetic. *)
Definition get_closest_shape (width height : Z) (valid_shapes : list shape)
    (r : ratio) : result shape :=
  good ← is_good_ratio width height r;
  if good : bool then mret (height, width)
  else
    let bad_shape := (height, width) in
    index ← argmin (map (sq_dist bad_shape) valid_shapes);
    getitem valid_shapes (Z.of_nat index).

(** [shapes / ratio] in exact arithmetic: the rows (h, w) are divided
    entry by entry by (rw, rh).  An empty list does not broadcast against
    the ratio.  With a zero in the ratio there is no exact quotient and
    this reading stops; [Machine.np_divide] has the inf and nan of
    numpy. *)
Definition array_div (shapes : list shape) (r : ratio) : result (list Q) :=
  match shapes with
  | [] => Raise ValueError
  | _ =>
      if (r.1 =? 0) || (r.2 =? 0) then Raise FloatingPointError
      else Ok (concat (map (fun s : shape =>
                 [inject_Z s.1 / inject_Z r.1; inject_Z s.2 / inject_Z r.2]%Q)
               shapes))
  end.

(** [compute_all_valid_shapes], resize.py lines 59-68, in exact
    arithmetic. *)
Definition compute_all_valid_shapes (shapes : list shape) (r : ratio)
  : result (list shape) :=
  quotients ← array_div shapes r;
  m ← np_max quotients;
  let max_ratio := int_of m in
  let ratio_range := arange 1 (max_ratio + 1) in
  let valid_shapes := map (fun k => (k * r.1, k * r.2)) ratio_range in
  mret (map (fun row : Z * Z => (row.2, row.1)) valid_shapes).

(** [np.any(shape < valid_shape)] *)
Definition any_lt (s valid_shape : shape) : bool :=
  (s.1 <? valid_shape.1) || (s.2 <? valid_shape.2).

(** The [for]/[break] of [get_biggest_shape_contained_in_image]: the value
    of [i] when the loop is left, [last] being its value so far ([None]
    while it is unbound) and [idx] the index of the head of the list. *)
Fixpoint scan_shapes (s : shape) (valid_shapes : list shape) (idx : nat)
    (last : option nat) : option nat :=
  match valid_shapes with
  | [] => last
  | valid_shape :: rest =>
      if any_lt s valid_shape then Some idx
      else scan_shapes s rest (S idx) (Some idx)
  end.

(** [get_biggest_shape_contained_in_image], resize.py lines 89-95. *)
Definition get_biggest_shape_contained_in_image (s : shape)
    (valid_shapes : list shape) : result shape :=
  match scan_shapes s valid_shapes 0 None with
  | None => Raise UnboundLocalError
  | Some i => getitem valid_shapes (Z.of_nat i - 1)
  end.

(** ** Images and the file system *)

(** Blue, green and red channel of a pixel. *)
Definition pixel : Type := Z * Z * Z.

(** A decoded image: [image.shape[:2]] and the pixel at a row and column. *)
Record image : Type := Image {
  img_shape : shape;
  img_at : Z → Z → pixel
}.

(** [image.empty()] in OpenCV: no pixel at all. *)
Definition image_empty (img : image) : bool :=
  ((img_shape img).1 <=? 0) || ((img_shape img).2 <=? 0).

(** The directory [path]: every entry with the image it decodes to, or
    [None] when [cv2.imread] cannot decode it. *)
Abbreviation directory := (gmap string (option image)).

(** The effect of the script on the directory: the [cv2.imwrite] calls in
    the order they are made, and how the run ends. *)
Definition io (A : Type) : Type := list (string * image) * result A.

#[export] Instance io_ret : MRet io := fun A a => ([], Ok a).
#[export] Instance io_bind : MBind io := fun A B f m =>
  match m.2 with
  | Ok a => let k := f a in (m.1 ++ k.1, k.2)
  | Raise e => (m.1, Raise e)
  end.

Definition lift {A : Type} (r : result A) : io A := ([], r).

(** [cv2.imwrite(os.path.join(path, filename), img)] *)
Definition imwrite (filename : string) (img : image) : io () :=
  if image_empty img then ([], Raise Cv2Error)
  else ([(filename, img)], Ok ()).

(** [for x in l: body(x)] *)
Fixpoint for_each {A : Type} (l : list A) (body : A → io ()) : io () :=
  match l with
  | [] => mret ()
  | x :: l' => _ ← body x; for_each l' body
  end.

(** The directory after the writes of a trace. *)
Definition apply_writes (tr : list (string * image)) (fs : directory)
  : directory :=
  foldl (fun d fw => <[fw.1 := Some fw.2]> d) fs tr.

(** The bounds of [a[start:stop]] on an axis of length [n]: the first
    index kept and the number of indices kept. *)
Definition slice_index (n i : Z) : Z :=
  if i <? 0 then Z.max (i + n) 0 else Z.min i n.

Definition slice_range (n start stop : Z) : Z * Z :=
  let a := slice_index n start in
  let b := slice_index n stop in
  (a, Z.max (b - a) 0).

(** [img[r0:r1, c0:c1]] *)
Definition image_slice (img : image) (r0 r1 c0 c1 : Z) : image :=
  let rows := slice_range (img_shape img).1 r0 r1 in
  let cols := slice_range (img_shape img).2 c0 c1 in
  {| img_shape := (rows.2, cols.2);
     img_at := fun i j => img_at img (rows.1 + i) (cols.1 + j) |}.

(** [sorted(os.listdir(path))] *)
Definition str_le (a b : string) : Prop := String.leb a b = true.

#[export] Instance str_le_dec (a b : string) : Decision (str_le a b).
Proof. unfold str_le. apply _. Defined.

Definition listdir (fs : directory) : list string := (map_to_list fs).*1.

Definition sorted (l : list string) : list string := merge_sort str_le l.

(** [load_image] and [load_images], resize.py lines 13-22. *)
Definition load_image (filename : string) (fs : directory) : option image :=
  mjoin (fs !! filename).

Definition load_images (filenames : list string) (fs : directory)
  : list (option image) :=
  map (fun filename => load_image filename fs) filenames.

(** [wallpaper.shape[:2]]; [None] has no attribute [shape]. *)
Definition shape_of (wallpaper : option image) : result shape :=
  match wallpaper with
  | Some img => Ok (img_shape img)
  | None => Raise AttributeError
  end.

(** ** Transforms and the batch loop *)

Section Transform.

(** The pixels that [cv2.resize] interpolates for a source image and a
    target shape. *)
Variable interpolate : image → shape → Z → Z → pixel.

(** [cv2.resize(src, dsize)] with [dsize] = (width, height). *)
Definition cv2_resize (src : image) (dsize : Z * Z) : result image :=
  if image_empty src || (dsize.1 <=? 0) || (dsize.2 <=? 0)
  then Raise Cv2Error
  else Ok {| img_shape := (dsize.2, dsize.1);
             img_at := interpolate src (dsize.2, dsize.1) |}.

(** [resize_image], resize.py lines 71-86. *)
Definition resize_image (filename : string) (img : image)
    (valid_shapes : list shape) (r : ratio) : io () :=
  let '(height, width) := img_shape img in
  closest_shape ← lift (get_closest_shape width height valid_shapes r);
  resized_image ← lift (cv2_resize img (closest_shape.2, closest_shape.1));
  imwrite filename resized_image.

(** The margins of [crop_image], resize.py lines 113-115. *)
Definition crop_margins (old_shape new_shape : shape)
  : (Z * Z) * (Z * Z) :=
  let margin := (old_shape.1 - new_shape.1, old_shape.2 - new_shape.2) in
  let up_left_margin := (margin.1 / 2, margin.2 / 2) in
  let down_right_margin :=
    (margin.1 - up_left_margin.1, margin.2 - up_left_margin.2) in
  (up_left_margin, down_right_margin).

(** The slicing of [crop_image], resize.py lines 116-123.  The names
    follow the source, where the first axis is called the width. *)
Definition crop_to (img : image) (new_shape : shape) : image :=
  let old_shape := img_shape img in
  let '((left_margin, up_margin), (right_margin, down_margin)) :=
    crop_margins old_shape new_shape in
  let '(width, height) := old_shape in
  image_slice img left_margin (width - right_margin)
                  up_margin (height - down_margin).

(** [crop_image], resize.py lines 98-124. *)
Definition crop_image (filename : string) (img : image)
    (valid_shapes : list shape) : io () :=
  let old_shape := img_shape img in
  new_shape ← lift (get_biggest_shape_contained_in_image old_shape
                      valid_shapes);
  imwrite filename (crop_to img new_shape).

(** The body of the loop of [main], resize.py lines 139-158. *)
Definition process (valid_shapes : list shape) (r : ratio) (margin : Q)
    (item : option image * string) : io () :=
  let '(wallpaper, filename) := item in
  match wallpaper with
  | None => lift (Raise AttributeError)
  | Some img =>
      let '(height, width) := img_shape img in
      kind ← lift (classify width height r margin);
      match kind with
      | Conforming => mret ()
      | Resizable => resize_image filename img valid_shapes r
      | CropRequired => crop_image filename img valid_shapes
      end
  end.

(** [main], resize.py lines 132-158.  [verbose] only selects console
    output. *)
Definition main (fs : directory) (r : ratio) (margin : Q) (verbose : bool)
  : io () :=
  let filenames := sorted (listdir fs) in
  let wallpapers := load_images filenames fs in
  shapes ← lift (mapM shape_of wallpapers);
  valid_shapes ← lift (compute_all_valid_shapes shapes r);
  for_each (zip wallpapers filenames) (process valid_shapes r margin).

End Transform.

(** ** Predicates of the specification *)

(** [k] is the first index of a least entry of [l]. *)
Definition first_min (l : list Z) (k : nat) : Prop :=
  ∃ m, l !! k = Some m
       ∧ (∀ x, x ∈ l → m ≤ x)
       ∧ (∀ j x, (j < k)%nat → l !! j = Some x → m < x).

(** A shape fits in an image shape on both axes. *)
Definition contained (v s : shape) : Prop := v.1 ≤ s.1 ∧ v.2 ≤ s.2.

(** The truncated quotients of which [compute_all_valid_shapes] takes the
    greatest: every height by rw and every width by rh. *)
Definition quotients_of (shapes : list shape) (r : ratio) : list Z :=
  concat (map (fun s : shape => [Z.quot s.1 r.1; Z.quot s.2 r.2]) shapes).

(** [m] is the greatest entry of [l]. *)
Definition is_max (m : Z) (l : list Z) : Prop :=
  m ∈ l ∧ ∀ x, x ∈ l → x ≤ m.

(** The multiples (k * rh, k * rw) for k = 1..m. *)
Definition multiples (m : Z) (r : ratio) : list shape :=
  map (fun k => (k * r.2, k * r.1)) (arange 1 (m + 1)).


(** Later shapes of the sequence are larger in both dimensions. *)
Definition increasing (vs : list shape) : Prop :=
  ∀ (i j : nat) (a b : shape),
    (i < j)%nat → vs !! i = Some a → vs !! j = Some b →
    a.1 < b.1 ∧ a.2 < b.2.

(** ** 64-bit integers *)

(** The value of a signed 64-bit integer after an overflow. *)
Definition wrap64 (z : Z) : Z := (z + 2 ^ 63) mod 2 ^ 64 - 2 ^ 63.

(** [sq_dist] as numpy computes it on [int64] arrays. *)
Definition sq_dist64 (bad_shape valid_shape : shape) : Z :=
  let d1 := wrap64 (valid_shape.1 - bad_shape.1) in
  let d2 := wrap64 (valid_shape.2 - bad_shape.2) in
  wrap64 (wrap64 (d1 * d1) + wrap64 (d2 * d2)).

(** ** Binary64 *)

(** [x] is a finite binary64 number: a significand of 53 bits scaled by a
    power of two between 2^-1074 and 2^971. *)
Definition is_b64 (x : Q) : Prop :=
  ∃ m p : Z, Z.abs m < 2 ^ 53
    ∧ ((0 ≤ p ≤ 971 ∧ x == inject_Z (m * 2 ^ p))
       ∨ (0 ≤ p ≤ 1074 ∧ x == inject_Z m / inject_Z (2 ^ p)))%Q.

(** [y] is a binary64 number nearest to [q]: what a correctly rounded
    operation with the exact result [q] returns. *)
Definition nearest_b64 (q y : Q) : Prop :=
  is_b64 y ∧ ∀ x, is_b64 x → (Qabs (y - q) <= Qabs (x - q))%Q.

(** ** Binary64 rounding *)

(** The integer nearest to [n / d], for [d > 0]; of two integers equally
    near, the even one. *)
Definition rne (n d : Z) : Z :=
  let f := n / d in
  match 2 * (n mod d) ?= d with
  | Lt => f
  | Gt => f + 1
  | Eq => if Z.even f then f else f + 1
  end.

(** [2^e] for [e >= 0], and 1 for a negative [e]. *)
Definition shl (e : Z) : Z := 2 ^ Z.max 0 e.

(** [2^e] as a rational, for every integer [e]. *)
Definition pow2 (e : Z) : Q := (inject_Z (shl e) / inject_Z (shl (- e)))%Q.

(** The exponent of the unit in the last place for the quotient of two
    positive integers: the [e] with [2^52 <= (n / d) / 2^e < 2^53], and
    -1074 where that would be lower (the subnormal numbers). *)
Definition b64_exponent (n d : Z) : Z :=
  let e1 := Z.log2 n - Z.log2 d - 53 in
  let e := if 2 ^ 53 * (d * shl e1) <=? n * shl (- e1) then e1 + 1 else e1 in
  Z.max e (-1074).

Definition b64_round_pos (n d : Z) : Q :=
  let e := b64_exponent n d in
  (inject_Z (rne (n * shl (- e)) (d * shl e)) * pow2 e)%Q.

(** Rounding to nearest, ties to even, with 53 bits and the exponents of
    binary64 from -1074 upward: what an operation with the exact result [q]
    returns, as long as that is finite. *)
Definition b64_round (q : Q) : Q :=
  match Qnum (Qred q) with
  | Z0 => 0%Q
  | Zpos n => b64_round_pos (Zpos n) (Zpos (Qden (Qred q)))
  | Zneg n => (- b64_round_pos (Zpos n) (Zpos (Qden (Qred q))))%Q
  end.

(** A rounded value is a finite binary64 number when it is below 2^1024 in
    absolute value; from there on the operation overflows. *)
Definition b64_finite (y : Q) : bool :=
  negb (Qle_bool (inject_Z (2 ^ 1024)) (Qabs y)).

(** An entry of a numpy array of type float64. *)
Inductive f64 : Type :=
| Fin (q : Q)
| PInf
| NInf
| NaN.

(** A shape whose dimensions fit in 31 bits, as those of an OpenCV image
    do. *)
Definition small_shape (s : shape) : Prop :=
  0 ≤ s.1 < 2 ^ 31 ∧ 0 ≤ s.2 < 2 ^ 31.

(** ** The script in machine arithmetic *)

(** The functions of the script that compute with numbers, as Python and
    numpy compute them: [/] on Python integers returns the binary64 number
    nearest to the quotient, numpy divides two integer arrays in float64,
    and the entries of an integer array are signed 64-bit integers.  The
    integers given to numpy are taken in the range of int64. *)
Module Machine.

(** [a / b] on Python integers: the quotient correctly rounded, or
    [OverflowError] beyond the range of a float. *)
Definition true_div (a b : Z) : result Q :=
  if b =? 0 then Raise ZeroDivisionError
  else
    let y := b64_round (inject_Z a / inject_Z b) in
    if b64_finite y then Ok y else Raise OverflowError.

(** [is_good_ratio], resize.py lines 25-31. *)
Definition is_good_ratio (width height : Z) (r : ratio) : result bool :=
  q ← true_div (height * r.1) r.2;
  mret (width =? int_of q).

(** [is_resizable], resize.py lines 34-41.  The difference of the two
    floats is rounded; when it overflows it is inf, which is above every
    margin.  [margin] is the value of the float given. *)
Definition is_resizable (width height : Z) (margin : Q) (r : ratio)
  : result bool :=
  a ← true_div width height;
  b ← true_div r.1 r.2;
  let d := b64_round (a - b) in
  mret (b64_finite d && Qle_bool (Qabs d) margin).

(** The [if]/[elif]/[else] of the loop of [main], resize.py lines
    141-152. *)
Definition classify (width height : Z) (r : ratio) (margin : Q)
  : result outcome :=
  good ← is_good_ratio width height r;
  if good : bool then mret Conforming
  else
    resizable ← is_resizable width height margin r;
    mret (if resizable : bool then Resizable else CropRequired).

(** [get_closest_shape], resize.py lines 44-56: the difference, the
    squares and their sum are computed on int64 arrays. *)
Definition get_closest_shape (width height : Z) (valid_shapes : list shape)
    (r : ratio) : result shape :=
  good ← is_good_ratio width height r;
  if good : bool then mret (height, width)
  else
    let bad_shape := (height, width) in
    index ← argmin (map (sq_dist64 bad_shape) valid_shapes);
    getitem valid_shapes (Z.of_nat index).

(** An entry of [shapes / ratio]: both integers are converted to float64
    and divided there; a division by zero gives inf, -inf or nan (numpy
    only warns). *)
Definition np_divide (a b : Z) : f64 :=
  if b =? 0 then
    match a ?= 0 with
    | Gt => PInf
    | Lt => NInf
    | Eq => NaN
    end
  else Fin (b64_round (b64_round (inject_Z a) / b64_round (inject_Z b))).

(** The greater of two entries; nan wins. *)
Definition f64_max (x y : f64) : f64 :=
  match x, y with
  | NaN, _ | _, NaN => NaN
  | PInf, _ | _, PInf => PInf
  | NInf, z | z, NInf => z
  | Fin p, Fin q => Fin (Qmax p q)
  end.

(** [np.max] of the entries of an array. *)
Definition np_max (l : list f64) : result f64 :=
  match l with
  | [] => Raise ValueError
  | x :: l' => Ok (foldl f64_max x l')
  end.

(** [x.astype(int)]: truncation toward zero; what does not fit in int64
    (inf and nan included) becomes -2^63, as the conversion instruction of
    x86-64 has it. *)
Definition astype_int (x : f64) : Z :=
  match x with
  | Fin q =>
      let z := int_of q in
      if (- 2 ^ 63 <=? z) && (z <? 2 ^ 63) then z else - 2 ^ 63
  | _ => - 2 ^ 63
  end.

(** [compute_all_valid_shapes], resize.py lines 59-68: the products of
    [np.dot] are int64 and wrap. *)
Definition compute_all_valid_shapes (shapes : list shape) (r : ratio)
  : result (list shape) :=
  m ← np_max (concat (map (fun s : shape =>
                 [np_divide s.1 r.1; np_divide s.2 r.2]) shapes));
  let max_ratio := astype_int m in
  let ratio_range := arange 1 (wrap64 (max_ratio + 1)) in
  let valid_shapes :=
    map (fun k => (wrap64 (k * r.1), wrap64 (k * r.2))) ratio_range in
  mret (map (fun row : Z * Z => (row.2, row.1)) valid_shapes).

(** The margins of [crop_image], resize.py lines 113-115: the difference
    of the two int64 arrays wraps; the halves do not. *)
Definition crop_margins (old_shape new_shape : shape)
  : (Z * Z) * (Z * Z) :=
  let margin := (wrap64 (old_shape.1 - new_shape.1),
                 wrap64 (old_shape.2 - new_shape.2)) in
  let up_left_margin := (margin.1 / 2, margin.2 / 2) in
  let down_right_margin :=
    (margin.1 - up_left_margin.1, margin.2 - up_left_margin.2) in
  (up_left_margin, down_right_margin).

(** The slicing of [crop_image], resize.py lines 116-123. *)
Definition crop_to (img : image) (new_shape : shape) : image :=
  let old_shape := img_shape img in
  let '((left_margin, up_margin), (right_margin, down_margin)) :=
    crop_margins old_shape new_shape in
  let '(width, height) := old_shape in
  image_slice img left_margin (width - right_margin)
                  up_margin (height - down_margin).

(** [crop_image], resize.py lines 98-124. *)
Definition crop_image (filename : string) (img : image)
    (valid_shapes : list shape) : io () :=
  let old_shape := img_shape img in
  new_shape ← lift (get_biggest_shape_contained_in_image old_shape
                      valid_shapes);
  imwrite filename (crop_to img new_shape).

Section Transform.

Variable interpolate : image → shape → Z → Z → pixel.

(** [resize_image], resize.py lines 71-86. *)
Definition resize_image (filename : string) (img : image)
    (valid_shapes : list shape) (r : ratio) : io () :=
  let '(height, width) := img_shape img in
  closest_shape ← lift (get_closest_shape width height valid_shapes r);
  resized_image ← lift (cv2_resize interpolate img
                          (closest_shape.2, closest_shape.1));
  imwrite filename resized_image.

(** The body of the loop of [main], resize.py lines 139-158. *)
Definition process (valid_shapes : list shape) (r : ratio) (margin : Q)
    (item : option image * string) : io () :=
  let '(wallpaper, filename) := item in
  match wallpaper with
  | None => lift (Raise AttributeError)
  | Some img =>
      let '(height, width) := img_shape img in
      kind ← lift (classify width height r margin);
      match kind with
      | Conforming => mret ()
      | Resizable => resize_image filename img valid_shapes r
      | CropRequired => crop_image filename img valid_shapes
      end
  end.

(** [main], resize.py lines 132-158. *)
Definition main (fs : directory) (r : ratio) (margin : Q) (verbose : bool)
  : io () :=
  let filenames := sorted (listdir fs) in
  let wallpapers := load_images filenames fs in
  shapes ← lift (mapM shape_of wallpapers);
  valid_shapes ← lift (compute_all_valid_shapes shapes r);
  for_each (zip wallpapers filenames) (process valid_shapes r margin).

End Transform.

End Machine.

(** ** Basic facts *)

Lemma int_of_true_div (a b : Z) :
  b ≠ 0 → int_of (inject_Z a / inject_Z b) = Z.quot a b.
Proof.
  intros Hb. unfold int_of, Qdiv, Qinv, Qmult, inject_Z. simpl.
  destruct b as [|p|p]; [done| |]; simpl.
  - by rewrite Z.mul_1_r.
  - rewrite <- (Z.quot_opp_opp a (Z.neg p)) by done.
    simpl. f_equal. lia.
Qed.

Lemma is_good_ratio_eq (w h : Z) (r : ratio) :
  r.2 ≠ 0 → is_good_ratio w h r = Ok (w =? Z.quot (h * r.1) r.2).
Proof.
  intros Hr. unfold is_good_ratio, true_div.
  destruct (Z.eqb_spec r.2 0) as [|_]; [done|].
  simpl. by rewrite int_of_true_div.
Qed.

(** ** Indexing *)

Lemma getitem_lookup {A : Type} (l : list A) (i : nat) (x : A) :
  l !! i = Some x → getitem l (Z.of_nat i) = Ok x.
Proof.
  intros Hx. pose proof (lookup_lt_Some _ _ _ Hx) as Hlt.
  unfold getitem.
  destruct (Z.ltb_spec (Z.of_nat i) 0) as [|_]; [lia|].
  destruct (Z.leb_spec 0 (Z.of_nat i)) as [_|]; [|lia].
  destruct (Z.ltb_spec (Z.of_nat i) (Z.of_nat (length l))) as [_|]; [|lia].
  simpl. by rewrite Nat2Z.id, Hx.
Qed.

Lemma getitem_from_end {A : Type} (l : list A) (x : A) :
  getitem (l ++ [x]) (-1) = Ok x.
Proof.
  unfold getitem. rewrite length_app. simpl.
  destruct (Z.leb_spec 0 (-1 + Z.of_nat (length l + 1))) as [_|]; [|lia].
  destruct (Z.ltb_spec (-1 + Z.of_nat (length l + 1))
              (Z.of_nat (length l + 1))) as [_|]; [|lia].
  simpl.
  replace (Z.to_nat (-1 + Z.of_nat (length l + 1))) with (length l) by lia.
  by rewrite list_lookup_middle.
Qed.

(** ** The first least entry *)

Lemma argmin_from_first_min (l pre : list Z) (best : Z) (best_i : nat) :
  pre !! best_i = Some best →
  (∀ x, x ∈ pre → best ≤ x) →
  (∀ j x, (j < best_i)%nat → pre !! j = Some x → best < x) →
  first_min (pre ++ l) (argmin_from l (length pre) best best_i).
Proof.
  revert pre best best_i.
  induction l as [|x l IH]; intros pre best best_i Hbest Hmin Hfirst.
  - simpl. rewrite app_nil_r. by exists best.
  - simpl. replace (pre ++ x :: l) with ((pre ++ [x]) ++ l)
      by (by rewrite <- app_assoc).
    replace (S (length pre)) with (length (pre ++ [x]))
      by (rewrite length_app; simpl; lia).
    destruct (Z.ltb_spec x best) as [Hlt|Hge]; apply IH.
    + by rewrite list_lookup_middle.
    + intros y [Hy|Hy]%elem_of_app.
      * specialize (Hmin y Hy). lia.
      * apply list_elem_of_singleton in Hy. lia.
    + intros j y Hj Hy. rewrite lookup_app_l in Hy by done.
      apply list_elem_of_lookup_2 in Hy. specialize (Hmin y Hy). lia.
    + rewrite lookup_app_l; [done|]. by eapply lookup_lt_Some.
    + intros y [Hy|Hy]%elem_of_app.
      * by apply Hmin.
      * apply list_elem_of_singleton in Hy. lia.
    + intros j y Hj Hy. apply (Hfirst j y Hj).
      rewrite lookup_app_l in Hy; [done|].
      apply lookup_lt_Some in Hbest. lia.
Qed.

Lemma argmin_first_min (l : list Z) :
  l ≠ [] → ∃ k, argmin l = Ok k ∧ first_min l k.
Proof.
  destruct l as [|x l]; [done|]. intros _.
  exists (argmin_from l 1 x 0). split; [done|].
  apply (argmin_from_first_min l [x] x 0); [done| |].
  - intros y Hy. apply list_elem_of_singleton in Hy. lia.
  - intros j y Hj. lia.
Qed.

(** ** Nearest shape *)

Lemma lookup_map {A B : Type} (f : A → B) (l : list A) (i : nat) :
  map f l !! i = f <$> l !! i.
Proof. apply (list_lookup_fmap f l i). Qed.

Lemma elem_of_map {A B : Type} (f : A → B) (l : list A) (y : B) :
  y ∈ map f l ↔ ∃ x, y = f x ∧ x ∈ l.
Proof. apply (list_elem_of_fmap f l y). Qed.

Lemma sq_dist_nonneg (p s : shape) : 0 ≤ sq_dist p s.
Proof. unfold sq_dist. nia. Qed.

Lemma sq_dist_zero (p s : shape) : sq_dist p s = 0 ↔ s = p.
Proof.
  unfold sq_dist. destruct p as [a b], s as [c d]. simpl. split.
  - intros H. f_equal; nia.
  - intros [= -> ->]. lia.
Qed.

(** ** Enumeration of the valid shapes *)

Lemma arange_lookup (a b : Z) (i : nat) :
  (i < Z.to_nat (b - a))%nat → arange a b !! i = Some (a + Z.of_nat i).
Proof.
  intros Hi. unfold arange. rewrite lookup_map.
  by rewrite lookup_seq_lt.
Qed.

Lemma arange_length (a b : Z) : length (arange a b) = Z.to_nat (b - a).
Proof. unfold arange. by rewrite length_map, length_seq. Qed.

Lemma int_of_mono (p q : Q) : (p <= q)%Q → int_of p ≤ int_of q.
Proof.
  destruct p as [a b], q as [c d]. unfold Qle, int_of. simpl. intros Hle.
  destruct (Z.le_gt_cases 0 a) as [Ha|Ha].
  - assert (Hc : 0 ≤ c) by nia.
    rewrite !Z.quot_div_nonneg by lia.
    apply Z.div_le_lower_bound; [lia|].
    pose proof (Z.mul_div_le a (Z.pos b)). nia.
  - destruct (Z.le_gt_cases 0 c) as [Hc|Hc].
    + transitivity 0.
      * apply Z.quot_le_upper_bound; lia.
      * apply Z.quot_pos; lia.
    + assert (Hqa : Z.quot a (Z.pos b) = - (- a / Z.pos b)).
      { rewrite <- Z.quot_div_nonneg, Z.quot_opp_l by lia. lia. }
      assert (Hqc : Z.quot c (Z.pos d) = - (- c / Z.pos d)).
      { rewrite <- Z.quot_div_nonneg, Z.quot_opp_l by lia. lia. }
      rewrite Hqa, Hqc. apply (proj1 (Z.opp_le_mono _ _)).
      apply Z.div_le_lower_bound; [lia|].
      pose proof (Z.mul_div_le (- c) (Z.pos d)). nia.
Qed.

Lemma int_of_Qmax (p q : Q) :
  int_of (Qmax p q) = Z.max (int_of p) (int_of q).
Proof.
  unfold Qmax, GenericMinMax.gmax.
  destruct (Qcompare_spec p q) as [Heq|Hlt|Hgt].
  - assert (Hle : (q <= p)%Q) by (rewrite Heq; apply Qle_refl).
    apply int_of_mono in Hle. lia.
  - apply Qlt_le_weak, int_of_mono in Hlt. lia.
  - apply Qlt_le_weak, int_of_mono in Hgt. lia.
Qed.

Lemma int_of_foldl_Qmax (l : list Q) (x : Q) :
  int_of (foldl Qmax x l) = foldl Z.max (int_of x) (map int_of l).
Proof.
  revert x. induction l as [|y l IH]; intros x; [done|].
  simpl. by rewrite IH, int_of_Qmax.
Qed.

Lemma foldl_Zmax_spec (l : list Z) (x : Z) :
  foldl Z.max x l ∈ x :: l ∧ ∀ y, y ∈ x :: l → y ≤ foldl Z.max x l.
Proof.
  revert x. induction l as [|z l IH]; intros x.
  - simpl. split; [left|]. intros y Hy.
    apply list_elem_of_singleton in Hy. lia.
  - simpl. destruct (IH (Z.max x z)) as [Hin Hub]. split.
    + apply elem_of_cons in Hin as [Hin|Hin].
      * rewrite Hin. destruct (Z.max_spec x z) as [[_ ->]|[_ ->]].
        -- right. left.
        -- left.
      * right. by right.
    + intros y Hy.
      assert (Z.max x z ≤ foldl Z.max (Z.max x z) l) by (apply Hub; left).
      apply elem_of_cons in Hy as [->|Hy]; [lia|].
      apply elem_of_cons in Hy as [->|Hy]; [lia|].
      apply Hub. by right.
Qed.

Lemma int_of_quotients (shapes : list shape) (r : ratio) :
  r.1 ≠ 0 → r.2 ≠ 0 →
  map int_of (concat (map (fun s : shape =>
     [inject_Z s.1 / inject_Z r.1; inject_Z s.2 / inject_Z r.2]%Q) shapes))
  = quotients_of shapes r.
Proof.
  intros H1 H2. unfold quotients_of.
  induction shapes as [|s shapes IH]; [done|].
  simpl. by rewrite IH, !int_of_true_div.
Qed.

(** What [compute_all_valid_shapes] returns: the multiples of (rh, rw) up
    to the greatest truncated quotient of a height by rw or of a width by
    rh. *)
Lemma compute_all_valid_shapes_multiples (shapes : list shape) (r : ratio) :
  shapes ≠ [] → r.1 ≠ 0 → r.2 ≠ 0 →
  ∃ m, is_max m (quotients_of shapes r)
       ∧ compute_all_valid_shapes shapes r = Ok (multiples m r).
Proof.
  intros Hs H1 H2. unfold compute_all_valid_shapes, array_div.
  pose proof (int_of_quotients shapes r H1 H2) as Hq.
  destruct shapes as [|s shapes]; [done|].
  destruct (Z.eqb_spec r.1 0) as [|_]; [done|].
  destruct (Z.eqb_spec r.2 0) as [|_]; [done|].
  simpl orb. cbv iota. simpl concat in *. unfold np_max. simpl_result.
  rewrite int_of_foldl_Qmax.
  match goal with
  | |- context [foldl Z.max ?x ?l] => exists (foldl Z.max x l)
  end.
  split.
  - unfold is_max. rewrite <- Hq. apply foldl_Zmax_spec.
  - unfold multiples. by rewrite map_map.
Qed.

Lemma multiples_lookup (m : Z) (r : ratio) (i : nat) (s : shape) :
  multiples m r !! i = Some s →
  s = ((1 + Z.of_nat i) * r.2, (1 + Z.of_nat i) * r.1) ∧ 1 + Z.of_nat i ≤ m.
Proof.
  unfold multiples. rewrite lookup_map. intros Hs.
  assert (Hi : (i < Z.to_nat (m + 1 - 1))%nat).
  { rewrite <- arange_length. apply lookup_lt_is_Some.
    destruct (arange 1 (m + 1) !! i); [eauto|done]. }
  rewrite arange_lookup in Hs by done. simpl in Hs.
  injection Hs as <-. split; [done|lia].
Qed.

Lemma multiples_length (m : Z) (r : ratio) :
  length (multiples m r) = Z.to_nat m.
Proof.
  unfold multiples. rewrite length_map, arange_length. f_equal. lia.
Qed.

Lemma multiples_lookup_lt (m : Z) (r : ratio) (i : nat) :
  (i < Z.to_nat m)%nat →
  multiples m r !! i
  = Some ((1 + Z.of_nat i) * r.2, (1 + Z.of_nat i) * r.1).
Proof.
  intros Hi. unfold multiples. rewrite lookup_map, arange_lookup; [done|].
  by replace (m + 1 - 1) with m by lia.
Qed.

Lemma multiples_increasing (m rw rh : Z) :
  0 < rw → 0 < rh → increasing (multiples m (rw, rh)).
Proof.
  intros Hrw Hrh i j a b Hij Ha Hb.
  apply multiples_lookup in Ha as [-> _].
  apply multiples_lookup in Hb as [-> _]. simpl. nia.
Qed.

(** C1 fails on the code: the array division pairs each height with rw
    and each width with rh, so the count of shapes is the greatest of
    h / rw and w / rh, not of w / rw and h / rh.  One 1920x1080 image
    with the ratio 16:9 gives 213 shapes where the claim has 120. *)
Theorem compute_all_valid_shapes_crossed :
  compute_all_valid_shapes [(1080, 1920)] (16, 9) = Ok (multiples 213 (16, 9))
  ∧ is_max 213 (quotients_of [(1080, 1920)] (16, 9))
  ∧ length (multiples 213 (16, 9)) = 213%nat
  ∧ last (multiples 213 (16, 9)) = Some (1917, 3408)
  ∧ Z.max (1920 / 16) (1080 / 9) = 120.
Proof.
  split_and!; try reflexivity.
  change (quotients_of [(1080, 1920)] (16, 9)) with [67; 213].
  split.
  - apply list_elem_of_In. simpl. auto.
  - intros x Hx. apply list_elem_of_In in Hx. simpl in Hx.
    destruct Hx as [<-|[<-|[]]]; lia.
Qed.

(** ** Largest contained shape *)

Lemma any_lt_false (s v : shape) : any_lt s v = false ↔ contained v s.
Proof.
  unfold any_lt, contained.
  destruct (Z.ltb_spec s.1 v.1), (Z.ltb_spec s.2 v.2); simpl; split;
    intros; try done; lia.
Qed.

Lemma scan_shapes_no_break (s : shape) (vs : list shape) (idx : nat)
    (last : option nat) :
  (∀ v, v ∈ vs → contained v s) →
  scan_shapes s vs idx last =
    match vs with
    | [] => last
    | _ => Some (idx + length vs - 1)%nat
    end.
Proof.
  revert idx last. induction vs as [|v vs IH]; intros idx last Hall; [done|].
  simpl. replace (any_lt s v) with false.
  2:{ symmetry. apply any_lt_false, Hall. left. }
  rewrite IH by (intros x Hx; apply Hall; by right).
  destruct vs; simpl; f_equal; lia.
Qed.

Lemma scan_shapes_break (s : shape) (pre : list shape) (v : shape)
    (post : list shape) (idx : nat) (last : option nat) :
  (∀ x, x ∈ pre → contained x s) → ¬ contained v s →
  scan_shapes s (pre ++ v :: post) idx last = Some (idx + length pre)%nat.
Proof.
  revert idx last. induction pre as [|u pre IH]; intros idx last Hpre Hv.
  - simpl. destruct (any_lt s v) eqn:E.
    + f_equal. lia.
    + by apply any_lt_false in E.
  - simpl. replace (any_lt s u) with false.
    2:{ symmetry. apply any_lt_false, Hpre. left. }
    rewrite IH; [f_equal; lia| |done].
    intros x Hx. apply Hpre. by right.
Qed.

(** Where the scan stops at a shape that does not fit, after at least one
    that does, the shape before it is returned. *)
Lemma get_biggest_at_break (s : shape) (pre : list shape) (u v : shape)
    (post : list shape) :
  (∀ x, x ∈ pre ++ [u] → contained x s) → ¬ contained v s →
  get_biggest_shape_contained_in_image s (pre ++ u :: v :: post) = Ok u.
Proof.
  intros Hpre Hv. unfold get_biggest_shape_contained_in_image.
  replace (pre ++ u :: v :: post) with ((pre ++ [u]) ++ v :: post)
    by (by rewrite <- app_assoc).
  rewrite scan_shapes_break by done.
  rewrite length_app. simpl.
  replace (Z.of_nat (length pre + 1) - 1) with (Z.of_nat (length pre)) by lia.
  apply getitem_lookup. rewrite <- app_assoc. by apply list_lookup_middle.
Qed.

(** Where the first shape already does not fit, the index [-1] selects
    the last shape. *)
Lemma get_biggest_wraps (s : shape) (v : shape) (vs : list shape)
    (z : shape) :
  ¬ contained v s →
  get_biggest_shape_contained_in_image s ((v :: vs) ++ [z]) = Ok z.
Proof.
  intros Hv. unfold get_biggest_shape_contained_in_image.
  rewrite <- app_comm_cons.
  rewrite (scan_shapes_break s [] v (vs ++ [z])); [|by inversion 1|done].
  simpl (Z.of_nat _ - 1). rewrite app_comm_cons. apply getitem_from_end.
Qed.

Lemma first_not_contained (s : shape) (vs : list shape) :
  (∃ v, v ∈ vs ∧ ¬ contained v s) →
  ∃ pre v post, vs = pre ++ v :: post
                ∧ (∀ x, x ∈ pre → contained x s) ∧ ¬ contained v s.
Proof.
  induction vs as [|x vs IH]; intros (v & Hin & Hv).
  - by apply not_elem_of_nil in Hin.
  - destruct (any_lt s x) eqn:E.
    + exists [], x, vs. split_and!; [done|by inversion 1|].
      intros Hx%any_lt_false. congruence.
    + apply any_lt_false in E.
      apply elem_of_cons in Hin as [->|Hin]; [done|].
      destruct IH as (pre & v' & post & -> & Hpre & Hv'); [eauto|].
      exists (x :: pre), v', post. split_and!; [done| |done].
      intros y [->|Hy]%elem_of_cons; auto.
Qed.

(** Between the two failures the function does what its name says: on an
    increasing sequence whose first shape fits and one of whose shapes
    does not, it returns the largest shape that fits. *)
Lemma get_biggest_when_exceeded (s : shape) (vs : list shape) :
  increasing vs →
  (∃ u, vs !! 0%nat = Some u ∧ contained u s) →
  (∃ v, v ∈ vs ∧ ¬ contained v s) →
  ∃ u, get_biggest_shape_contained_in_image s vs = Ok u
       ∧ u ∈ vs ∧ contained u s
       ∧ ∀ t, t ∈ vs → contained t s → t.1 ≤ u.1 ∧ t.2 ≤ u.2.
Proof.
  intros Hinc (u0 & Hu0 & Hfit) Hex.
  destruct (first_not_contained s vs Hex) as (pre & v & post & -> & Hpre & Hv).
  destruct (decide (pre = [])) as [->|Hne].
  { simpl in Hu0. by injection Hu0 as ->. }
  destruct (exists_last Hne) as (pre' & u & ->).
  rewrite <- app_assoc. simpl.
  exists u. split_and!.
  - by apply get_biggest_at_break.
  - apply elem_of_app. right. left.
  - apply Hpre, elem_of_app. right. left.
  - intros t [j Hj]%list_elem_of_lookup_1 Ht.
    rewrite <- app_assoc in Hinc. simpl in Hinc.
    assert (Hu : (pre' ++ u :: v :: post) !! length pre' = Some u)
      by (by apply list_lookup_middle).
    assert (Hv' : (pre' ++ u :: v :: post) !! S (length pre') = Some v).
    { rewrite lookup_app_r by lia.
      by replace (S (length pre') - length pre')%nat with 1%nat by lia. }
    destruct (Nat.lt_trichotomy j (length pre')) as [Hlt|[->|Hgt]].
    + destruct (Hinc _ _ _ _ Hlt Hj Hu). lia.
    + rewrite Hu in Hj. injection Hj as ->. lia.
    + exfalso. apply Hv.
      destruct (decide (j = S (length pre'))) as [->|Hjne].
      * rewrite Hv' in Hj. by injection Hj as ->.
      * assert (Hlt : (S (length pre') < j)%nat) by lia.
        destruct (Hinc _ _ _ _ Hlt Hv' Hj). unfold contained in *. lia.
Qed.

(** C10: when every shape of the sequence fits in the image the loop
    ends without a break, with [i] on the last index, and the shape before
    the last is returned, not the last one: of the multiples for
    k = 1..m it is the one for k = m - 1.  A sequence of one shape returns
    that shape through the index [-1]. *)
Theorem get_biggest_all_contained (s : shape) (vs : list shape) :
  vs ≠ [] → (∀ v : shape, v ∈ vs → v.1 ≤ s.1 ∧ v.2 ≤ s.2) →
  get_biggest_shape_contained_in_image s vs
    = getitem vs (Z.of_nat (length vs) - 2)
  ∧ (∀ pre a b, vs = pre ++ [a; b] →
       get_biggest_shape_contained_in_image s vs = Ok a
       ∧ (a ≠ b → get_biggest_shape_contained_in_image s vs ≠ Ok b))
  ∧ (∀ m r, vs = multiples m r → 2 ≤ m →
       get_biggest_shape_contained_in_image s vs
       = Ok ((m - 1) * r.2, (m - 1) * r.1))
  ∧ (∀ a, vs = [a] → get_biggest_shape_contained_in_image s vs = Ok a).
Proof.
  intros Hvs Hall.
  assert (Hidx : get_biggest_shape_contained_in_image s vs
                 = getitem vs (Z.of_nat (length vs) - 2)).
  { unfold get_biggest_shape_contained_in_image.
    rewrite (scan_shapes_no_break s vs 0 None) by done.
    destruct vs as [|v vs]; [done|]. simpl length. f_equal. lia. }
  split_and!; [done| | |].
  - intros pre a b ->. rewrite Hidx.
    assert (Ha : getitem (pre ++ [a; b])
                   (Z.of_nat (length (pre ++ [a; b])) - 2) = Ok a).
    { rewrite length_app. simpl.
      replace (Z.of_nat (length pre + 2) - 2) with (Z.of_nat (length pre))
        by lia.
      apply getitem_lookup. by apply list_lookup_middle. }
    rewrite Ha. split; [done|congruence].
  - intros m r -> Hm. rewrite Hidx, multiples_length.
    replace (Z.of_nat (Z.to_nat m) - 2) with (Z.of_nat (Z.to_nat (m - 2)))
      by lia.
    apply getitem_lookup. rewrite multiples_lookup_lt by lia.
    do 3 f_equal; lia.
  - intros a ->. rewrite Hidx. reflexivity.
Qed.

Lemma get_biggest_all_contained_witness :
  get_biggest_shape_contained_in_image (100, 100) [(9, 16); (18, 32); (27, 48)]
    = Ok (18, 32)
  ∧ get_biggest_shape_contained_in_image (100, 100) [(9, 16)] = Ok (9, 16).
Proof.
  split.
  - destruct (get_biggest_all_contained (100, 100)
                [(9, 16); (18, 32); (27, 48)]) as (_ & H & _).
    + discriminate.
    + intros v Hv. apply list_elem_of_In in Hv. simpl in Hv.
      destruct Hv as [<-|[<-|[<-|[]]]]; simpl; lia.
    + apply (H [(9, 16)] (18, 32) (27, 48)). reflexivity.
  - destruct (get_biggest_all_contained (100, 100) [(9, 16)])
      as (_ & _ & _ & H).
    + discriminate.
    + intros v Hv. apply list_elem_of_In in Hv. simpl in Hv.
      destruct Hv as [<-|[]]; simpl; lia.
    + by apply H.
Defined.

(** C2 fails on the code in two ways: with every shape fitting, the
    largest one is passed over; with no shape fitting, the last one is
    returned although it does not fit. *)
Theorem get_biggest_shape_not_biggest :
  (get_biggest_shape_contained_in_image (100, 100) [(9, 16); (18, 32)]
     = Ok (9, 16)
   ∧ (18, 32) ∈ [(9, 16); (18, 32)] ∧ contained (18, 32) (100, 100))
  ∧ (compute_all_valid_shapes [(8, 100)] (16, 9)
       = Ok (map (fun k => (k * 9, k * 16)) (arange 1 12))
     ∧ get_biggest_shape_contained_in_image (8, 100)
         (map (fun k => (k * 9, k * 16)) (arange 1 12)) = Ok (99, 176)
     ∧ ¬ contained (99, 176) (8, 100)).
Proof.
  split_and!; try reflexivity.
  - apply list_elem_of_In. simpl. auto.
  - unfold contained. simpl. lia.
  - unfold contained. simpl. lia.
Qed.

(** ** Cropping *)

Lemma slice_index_inner (n i : Z) : 0 ≤ i ≤ n → slice_index n i = i.
Proof.
  intros Hi. unfold slice_index. destruct (Z.ltb_spec i 0); lia.
Qed.

Lemma crop_margins_split (old_shape new_shape : shape) :
  let up_left := (crop_margins old_shape new_shape).1 in
  let down_right := (crop_margins old_shape new_shape).2 in
  up_left.1 + down_right.1 = old_shape.1 - new_shape.1
  ∧ up_left.2 + down_right.2 = old_shape.2 - new_shape.2
  ∧ up_left.1 = (old_shape.1 - new_shape.1) / 2
  ∧ up_left.2 = (old_shape.2 - new_shape.2) / 2
  ∧ down_right.1 = up_left.1 + (old_shape.1 - new_shape.1) mod 2
  ∧ down_right.2 = up_left.2 + (old_shape.2 - new_shape.2) mod 2.
Proof.
  unfold crop_margins. simpl.
  pose proof (Z.div_mod (old_shape.1 - new_shape.1) 2).
  pose proof (Z.div_mod (old_shape.2 - new_shape.2) 2).
  split_and!; lia.
Qed.

Lemma crop_to_shape (img : image) (new_shape : shape) :
  0 ≤ new_shape.1 ≤ (img_shape img).1 →
  0 ≤ new_shape.2 ≤ (img_shape img).2 →
  img_shape (crop_to img new_shape) = new_shape
  ∧ ∀ i j, img_at (crop_to img new_shape) i j
           = img_at img (((img_shape img).1 - new_shape.1) / 2 + i)
                        (((img_shape img).2 - new_shape.2) / 2 + j).
Proof.
  intros H1 H2. unfold crop_to, crop_margins, image_slice.
  destruct (img_shape img) as [H W] eqn:Hshape.
  destruct new_shape as [nh nw]. simpl in *.
  pose proof (Z.div_mod (H - nh) 2). pose proof (Z.div_mod (W - nw) 2).
  pose proof (Z.mod_pos_bound (H - nh) 2).
  pose proof (Z.mod_pos_bound (W - nw) 2).
  assert (0 ≤ (H - nh) / 2) by (apply Z.div_pos; lia).
  assert (0 ≤ (W - nw) / 2) by (apply Z.div_pos; lia).
  rewrite !slice_index_inner by lia.
  split; [f_equal; lia|done].
Qed.

(** C8: the two margins of each axis add up to old - new, the leading
    one is the floor of half of it, so that the trailing one takes the odd
    pixel; and for a new shape within the old one the cropped image has
    the new shape, its pixels being those of the old image from the
    leading margins on.  [crop_image] writes that image. *)
Theorem crop_image_margins (img : image) (new_shape : shape) :
  let old_shape := img_shape img in
  let up_left := (crop_margins old_shape new_shape).1 in
  let down_right := (crop_margins old_shape new_shape).2 in
  (up_left.1 + down_right.1 = old_shape.1 - new_shape.1
   ∧ up_left.2 + down_right.2 = old_shape.2 - new_shape.2
   ∧ up_left.1 = (old_shape.1 - new_shape.1) / 2
   ∧ up_left.2 = (old_shape.2 - new_shape.2) / 2
   ∧ down_right.1 = up_left.1 + (old_shape.1 - new_shape.1) mod 2
   ∧ down_right.2 = up_left.2 + (old_shape.2 - new_shape.2) mod 2)
  ∧ (0 ≤ new_shape.1 ≤ old_shape.1 → 0 ≤ new_shape.2 ≤ old_shape.2 →
     img_shape (crop_to img new_shape) = new_shape
     ∧ (∀ i j, img_at (crop_to img new_shape) i j
               = img_at img (up_left.1 + i) (up_left.2 + j))
     ∧ (∀ filename valid_shapes,
          0 < new_shape.1 → 0 < new_shape.2 →
          get_biggest_shape_contained_in_image old_shape valid_shapes
            = Ok new_shape →
          crop_image filename img valid_shapes
            = ([(filename, crop_to img new_shape)], Ok ()))).
Proof.
  intros old_shape up_left down_right. split.
  - apply crop_margins_split.
  - intros H1 H2. destruct (crop_to_shape img new_shape H1 H2) as [Hs Hat].
    split_and!; [done|done|].
    intros filename vs Hp1 Hp2 Hbig. unfold crop_image.
    fold old_shape. rewrite Hbig. unfold lift, imwrite, image_empty.
    unfold mbind, io_bind. simpl. rewrite Hs.
    destruct (Z.leb_spec new_shape.1 0); [lia|].
    destruct (Z.leb_spec new_shape.2 0); [lia|]. done.
Qed.

Lemma crop_image_margins_witness :
  img_shape (crop_to (Image (1000, 1000) (fun i j => (i, j, 0))) (558, 992))
    = (558, 992)
  ∧ crop_image "c.png" (Image (1000, 1000) (fun i j => (i, j, 0)))
      (multiples 213 (16, 9))
    = ([("c.png",
         crop_to (Image (1000, 1000) (fun i j => (i, j, 0))) (558, 992))],
       Ok ()).
Proof.
  destruct (crop_image_margins (Image (1000, 1000) (fun i j => (i, j, 0)))
              (558, 992)) as [_ H].
  destruct H as (Hs & _ & Hw); [simpl; lia|simpl; lia|].
  split; [exact Hs|].
  apply Hw; [simpl; lia|simpl; lia|].
  vm_compute. reflexivity.
Defined.

(** ** The batch loop *)

Section Batch.

Variable interpolate : image → shape → Z → Z → pixel.

Lemma io_bind_trace {A B : Type} (m : io A) (f : A → io B)
    (fw : string * image) :
  fw ∈ (m ≫= f).1 → fw ∈ m.1 ∨ ∃ a, m.2 = Ok a ∧ fw ∈ (f a).1.
Proof.
  unfold mbind, io_bind. destruct m as [tr [a|e]]; simpl.
  - intros [H|H]%elem_of_app; eauto.
  - auto.
Qed.

Lemma imwrite_trace (filename : string) (img : image)
    (fw : string * image) :
  fw ∈ (imwrite filename img).1 → fw.1 = filename.
Proof.
  unfold imwrite. destruct (image_empty img); simpl.
  - by intros ?%not_elem_of_nil.
  - by intros ->%list_elem_of_singleton.
Qed.

Lemma resize_image_trace (filename : string) (img : image)
    (vs : list shape) (r : ratio) (fw : string * image) :
  fw ∈ (resize_image interpolate filename img vs r).1 → fw.1 = filename.
Proof.
  unfold resize_image. destruct (img_shape img) as [h w].
  intros [H|(s & _ & H)]%io_bind_trace; [by apply not_elem_of_nil in H|].
  apply io_bind_trace in H as [H|(i & _ & H)];
    [by apply not_elem_of_nil in H|].
  by eapply imwrite_trace.
Qed.

Lemma crop_image_trace (filename : string) (img : image)
    (vs : list shape) (fw : string * image) :
  fw ∈ (crop_image filename img vs).1 → fw.1 = filename.
Proof.
  unfold crop_image.
  intros [H|(s & _ & H)]%io_bind_trace; [by apply not_elem_of_nil in H|].
  by eapply imwrite_trace.
Qed.

(** An image is only ever written to its own file. *)
Lemma process_trace (vs : list shape) (r : ratio) (margin : Q)
    (wallpaper : option image) (filename : string) (fw : string * image) :
  fw ∈ (process interpolate vs r margin (wallpaper, filename)).1 →
  fw.1 = filename.
Proof.
  unfold process. destruct wallpaper as [img|];
    [|by intros ?%not_elem_of_nil].
  destruct (img_shape img) as [h w].
  intros [H|(kind & _ & H)]%io_bind_trace; [by apply not_elem_of_nil in H|].
  destruct kind.
  - by apply not_elem_of_nil in H.
  - by eapply resize_image_trace.
  - by eapply crop_image_trace.
Qed.

(** A conforming image is skipped. *)
Lemma process_conforming (vs : list shape) (r : ratio) (margin : Q)
    (img : image) (filename : string) :
  is_good_ratio (img_shape img).2 (img_shape img).1 r = Ok true →
  process interpolate vs r margin (Some img, filename) = ([], Ok ()).
Proof.
  intros Hgood. unfold process, classify.
  destruct (img_shape img) as [h w]. simpl in Hgood. by rewrite Hgood.
Qed.

Lemma for_each_trace {A : Type} (l : list A) (body : A → io ())
    (fw : string * image) :
  fw ∈ (for_each l body).1 → ∃ x, x ∈ l ∧ fw ∈ (body x).1.
Proof.
  induction l as [|x l IH]; simpl.
  - by intros ?%not_elem_of_nil.
  - intros [H|(? & _ & H)]%io_bind_trace.
    + exists x. split; [left|done].
    + destruct (IH H) as (y & Hy & Hfw). exists y. split; [by right|done].
Qed.

Lemma zip_load_images (fs : directory) (filenames : list string)
    (wallpaper : option image) (filename : string) :
  (wallpaper, filename) ∈ zip (load_images filenames fs) filenames →
  wallpaper = load_image filename fs.
Proof.
  unfold load_images. induction filenames as [|f fns IH]; simpl.
  - by intros ?%not_elem_of_nil.
  - intros [[= -> ->]|H]%elem_of_cons; [done|by apply IH].
Qed.

(** Every write of a run is made for an entry of the directory, while
    that entry is processed. *)
Lemma main_trace (fs : directory) (r : ratio) (margin : Q) (verbose : bool)
    (fw : string * image) :
  fw ∈ (main interpolate fs r margin verbose).1 →
  ∃ vs, fw ∈ (process interpolate vs r margin
                (load_image fw.1 fs, fw.1)).1.
Proof.
  unfold main.
  intros [H|(shapes & _ & H)]%io_bind_trace;
    [by apply not_elem_of_nil in H|].
  apply io_bind_trace in H as [H|(vs & _ & H)];
    [by apply not_elem_of_nil in H|].
  apply for_each_trace in H as ([wallpaper filename] & Hitem & H).
  apply zip_load_images in Hitem as ->.
  rewrite (process_trace _ _ _ _ _ _ H). by exists vs.
Qed.

Lemma load_image_Some (fs : directory) (filename : string) (img : image) :
  load_image filename fs = Some img ↔ fs !! filename = Some (Some img).
Proof.
  unfold load_image. destruct (fs !! filename) as [[i|]|]; simpl;
    split; congruence.
Qed.


(** A conforming image is never written, whatever else is in the
    directory. *)
Lemma main_skips_conforming (fs : directory) (r : ratio) (margin : Q)
    (verbose : bool) (filename : string) (img : image) :
  fs !! filename = Some (Some img) →
  is_good_ratio (img_shape img).2 (img_shape img).1 r = Ok true →
  ∀ fw, fw ∈ (main interpolate fs r margin verbose).1 → fw.1 ≠ filename.
Proof.
  intros Hfile Hgood fw [vs H]%main_trace Heq.
  apply (proj2 (load_image_Some _ _ _)) in Hfile.
  rewrite Heq, Hfile, process_conforming in H by done.
  by apply not_elem_of_nil in H.
Qed.


End Batch.






(** ** 64-bit integers *)

Lemma wrap64_small (z : Z) : - 2 ^ 63 ≤ z < 2 ^ 63 → wrap64 z = z.
Proof.
  intros Hz. unfold wrap64. rewrite Z.mod_small by lia. lia.
Qed.

Lemma square_bound (d : Z) : - 2 ^ 31 < d < 2 ^ 31 → 0 ≤ d * d < 2 ^ 62.
Proof.
  intros Hd. change (2 ^ 62) with (2 ^ 31 * 2 ^ 31).
  generalize dependent (2 ^ 31). intros b Hd. nia.
Qed.

(** X21: for dimensions below 2^31 the squared distance does not overflow. *)
Lemma sq_dist64_exact (p s : shape) :
  0 ≤ p.1 < 2 ^ 31 → 0 ≤ p.2 < 2 ^ 31 →
  0 ≤ s.1 < 2 ^ 31 → 0 ≤ s.2 < 2 ^ 31 →
  sq_dist64 p s = sq_dist p s.
Proof.
  intros Hp1 Hp2 Hs1 Hs2. unfold sq_dist64, sq_dist.
  rewrite !(wrap64_small (_ - _)) by lia.
  assert (H1 : 0 ≤ (s.1 - p.1) * (s.1 - p.1) < 2 ^ 62)
    by (apply square_bound; lia).
  assert (H2 : 0 ≤ (s.2 - p.2) * (s.2 - p.2) < 2 ^ 62)
    by (apply square_bound; lia).
  rewrite (wrap64_small ((s.1 - p.1) * _)) by lia.
  rewrite (wrap64_small ((s.2 - p.2) * _)) by lia.
  rewrite wrap64_small by lia. lia.
Qed.

(** ** Exact quotients and binary64 *)

Lemma int_of_between (y : Q) (n : Z) :
  0 ≤ n → (inject_Z n <= y)%Q → (y < inject_Z (n + 1))%Q → int_of y = n.
Proof.
  destruct y as [p d]. unfold Qle, Qlt, int_of. simpl. intros Hn Hle Hlt.
  rewrite Z.quot_div_nonneg by nia.
  symmetry. apply (Z.div_unique p (Z.pos d) n (p - n * Z.pos d)); lia.
Qed.

Lemma Qabs_ge (x : Q) : (x <= Qabs x)%Q.
Proof. apply Qle_Qabs. Qed.

Lemma Qabs_ge_opp (x : Q) : (- x <= Qabs x)%Q.
Proof. rewrite <- Qabs_opp. apply Qle_Qabs. Qed.

Lemma Qabs_nonneg_eq (x : Q) : (0 <= x)%Q → (Qabs x == x)%Q.
Proof. apply Qabs_pos. Qed.

Lemma is_b64_int (n : Z) : Z.abs n < 2 ^ 53 → is_b64 (inject_Z n).
Proof.
  intros Hn. exists n, 0. split; [done|]. left. split; [lia|].
  by rewrite Z.mul_1_r.
Qed.

Lemma is_b64_below (n j : Z) :
  0 ≤ j ≤ 53 → 0 < (n + 1) * 2 ^ j ≤ 2 ^ 53 →
  is_b64 (inject_Z ((n + 1) * 2 ^ j - 1) / inject_Z (2 ^ j)).
Proof.
  intros Hj Hn. exists ((n + 1) * 2 ^ j - 1), j. split; [lia|].
  right. split; [lia|reflexivity].
Qed.

Section Quotient.

Variables a b : Z.
Hypothesis Ha : 0 ≤ a < 2 ^ 53.
Hypothesis Hb : 0 < b.

Let q : Q := (inject_Z a / inject_Z b)%Q.
Let n : Z := a / b.

Local Lemma b_pos : (0 < inject_Z b)%Q.
Proof. change 0%Q with (inject_Z 0). by rewrite <- Zlt_Qlt. Qed.

Local Lemma q_mul : (q * inject_Z b == inject_Z a)%Q.
Proof. unfold q. field. pose proof b_pos. lra. Qed.

Local Lemma n_bounds : 0 ≤ n ∧ n * b ≤ a ∧ a + 1 ≤ (n + 1) * b ∧ n < 2 ^ 53.
Proof.
  unfold n. pose proof (Z.mul_div_le a b Hb).
  pose proof (Z.mul_succ_div_gt a b Hb).
  assert (0 ≤ a / b) by (apply Z.div_pos; lia).
  assert (a / b ≤ a) by (apply Z.div_le_upper_bound; nia).
  lia.
Qed.

Local Lemma n_le_q : (inject_Z n * inject_Z b <= inject_Z a)%Q.
Proof.
  rewrite <- inject_Z_mult, <- Zle_Qle. apply n_bounds.
Qed.

Local Lemma q_lt_n1 :
  (inject_Z a + 1 <= (inject_Z n + 1) * inject_Z b)%Q.
Proof.
  change 1%Q with (inject_Z 1).
  rewrite <- !inject_Z_plus, <- inject_Z_mult, <- Zle_Qle. apply n_bounds.
Qed.

Lemma closest_ge (y : Q) :
  (∀ x, is_b64 x → (Qabs (y - q) <= Qabs (x - q))%Q) → (inject_Z n <= y)%Q.
Proof.
  intros Hnear.
  destruct (Qlt_le_dec y (inject_Z n)) as [Hlt|]; [exfalso|done].
  assert (Hn : is_b64 (inject_Z n)).
  { apply is_b64_int. pose proof n_bounds. lia. }
  specialize (Hnear _ Hn).
  pose proof b_pos. pose proof q_mul. pose proof n_le_q.
  assert (inject_Z n <= q)%Q by nra.
  pose proof (Qabs_ge_opp (y - q)).
  assert (Qabs (inject_Z n - q) <= q - inject_Z n)%Q
    by (apply Qabs_Qle_condition; split; lra).
  lra.
Qed.

Lemma closest_lt (y : Q) :
  (∀ x, is_b64 x → (Qabs (y - q) <= Qabs (x - q))%Q) →
  (y < inject_Z (n + 1))%Q.
Proof.
  intros Hnear.
  destruct (Qlt_le_dec y (inject_Z (n + 1))) as [|Hge]; [done|exfalso].
  rewrite inject_Z_plus in Hge. change (inject_Z 1) with 1%Q in Hge.
  pose proof b_pos as Hbq. pose proof q_mul as Hq.
  pose proof n_le_q as Hnq. pose proof q_lt_n1 as Hqn.
  destruct n_bounds as (Hn0 & Hnb & Hbn & Hn53).
  assert (Hgap : (1 <= (inject_Z n + 1 - q) * inject_Z b)%Q) by nra.
  assert (Hqlt : (q < inject_Z n + 1)%Q) by nra.
  pose proof (Qabs_ge (y - q)) as Hyq.
  (* a binary64 number [x] below [n + 1] that is nearer to [q] *)
  assert (Hx : ∃ x, is_b64 x ∧ (x < inject_Z n + 1)%Q
                    ∧ (inject_Z n + 1 - x < 2 * (inject_Z n + 1 - q))%Q).
  { destruct (decide (n = 0)) as [Hz|Hnz].
    - rewrite Hz in *. change (inject_Z 0) with 0%Q in *.
      destruct (Z.lt_ge_cases b (2 ^ 54)) as [Hsmall|Hbig].
      + exists (inject_Z ((0 + 1) * 2 ^ 53 - 1) / inject_Z (2 ^ 53))%Q.
        split; [apply is_b64_below; lia|].
        assert (Hb54 : (inject_Z b < inject_Z (2 ^ 54))%Q)
          by (by rewrite <- Zlt_Qlt).
        change (inject_Z ((0 + 1) * 2 ^ 53 - 1) / inject_Z (2 ^ 53))%Q
          with (9007199254740991 # 9007199254740992)%Q.
        change (inject_Z (2 ^ 54)) with (18014398509481984 # 1)%Q in Hb54.
        split; [reflexivity|]. nra.
      + exists (inject_Z 1 / inject_Z (2 ^ 1))%Q.
        split.
        { exists 1, 1. split; [lia|]. right. split; [lia|reflexivity]. }
        change (inject_Z 1 / inject_Z (2 ^ 1))%Q with (1 # 2)%Q.
        split; [reflexivity|].
        assert (Hab : (2 * inject_Z a <= inject_Z b)%Q).
        { change 2%Q with (inject_Z 2).
          rewrite <- inject_Z_mult, <- Zle_Qle. lia. }
        nra.
    - assert (Hn1 : 0 < n) by lia.
      pose proof (Z.log2_spec n Hn1) as [Hlo Hhi].
      pose proof (Z.log2_nonneg n) as Hk0.
      assert (Hk52 : Z.log2 n < 53) by (apply Z.log2_lt_pow2; lia).
      set (k := Z.log2 n) in *. set (j := 52 - k).
      assert (Hpow : 2 ^ k * (2 * 2 ^ j) = 2 ^ 53).
      { rewrite <- (Z.pow_succ_r 2 j), <- Z.pow_add_r by lia.
        f_equal. lia. }
      assert (Hsucc : 2 ^ Z.succ k = 2 * 2 ^ k) by (rewrite Z.pow_succ_r; lia).
      assert (HP : 0 < 2 ^ j) by (apply Z.pow_pos_nonneg; lia).
      assert (Hk : 0 < 2 ^ k) by (apply Z.pow_pos_nonneg; lia).
      assert (Hb2P : b + 1 ≤ 2 * 2 ^ j) by nia.
      exists (inject_Z ((n + 1) * 2 ^ j - 1) / inject_Z (2 ^ j))%Q.
      split; [apply is_b64_below; [lia|nia]|].
      set (P := 2 ^ j) in *.
      assert (HPq : (0 < inject_Z P)%Q)
        by (change 0%Q with (inject_Z 0); by rewrite <- Zlt_Qlt).
      assert (Hbq2 : (inject_Z b + 1 <= 2 * inject_Z P)%Q).
      { change 1%Q with (inject_Z 1). change 2%Q with (inject_Z 2).
        rewrite <- inject_Z_plus, <- inject_Z_mult, <- Zle_Qle. lia. }
      assert (Hxeq : (inject_Z ((n + 1) * P - 1) / inject_Z P
                      == inject_Z n + 1 - 1 / inject_Z P)%Q).
      { unfold Z.sub.
        rewrite inject_Z_plus, inject_Z_mult, inject_Z_plus, inject_Z_opp.
        change (inject_Z 1) with 1%Q. field. lra. }
      rewrite Hxeq.
      assert (Hinv : (0 < 1 / inject_Z P)%Q).
      { apply Qlt_shift_div_l; lra. }
      assert (HinvP : (1 / inject_Z P * inject_Z P == 1)%Q)
        by (field; lra).
      split; [lra|].
      destruct (Qlt_le_dec (inject_Z n + 1 - (inject_Z n + 1 - 1 / inject_Z P))
                  (2 * (inject_Z n + 1 - q))) as [|Hcontra]; [done|exfalso].
      assert (Hd : (2 * (inject_Z n + 1 - q) <= 1 / inject_Z P)%Q) by lra.
      assert (2 * (inject_Z n + 1 - q) * inject_Z P <= 1)%Q by nra.
      nra. }
  destruct Hx as (x & Hx & Hxlt & Hxnear).
  specialize (Hnear _ Hx).
  assert (Qabs (x - q) < inject_Z n + 1 - q)%Q.
  { destruct (Qlt_le_dec x q).
    - rewrite <- (Qabs_opp (x - q)), Qabs_nonneg_eq; lra.
    - rewrite Qabs_nonneg_eq; lra. }
  lra.
Qed.

Lemma rounded_ge (y : Q) : nearest_b64 q y → (inject_Z n <= y)%Q.
Proof. intros [_ Hnear]. by apply closest_ge. Qed.

Lemma rounded_lt (y : Q) : nearest_b64 q y → (y < inject_Z (n + 1))%Q.
Proof. intros [_ Hnear]. by apply closest_lt. Qed.

End Quotient.

(** X19: the test of [is_good_ratio] on the rounded quotient [y] that Python
    computes is the test on the exact quotient, for a dividend below
    2^53. *)
Lemma is_good_ratio_binary64 (w h : Z) (r : ratio) (y : Q) :
  0 ≤ h * r.1 < 2 ^ 53 → 0 < r.2 →
  nearest_b64 (inject_Z (h * r.1) / inject_Z r.2) y →
  is_good_ratio w h r = Ok (w =? int_of y).
Proof.
  intros Ha Hb Hy. rewrite is_good_ratio_eq by lia.
  rewrite Z.quot_div_nonneg by lia.
  rewrite (int_of_between y (h * r.1 / r.2)); [done| | |].
  - apply Z.div_pos; lia.
  - by apply rounded_ge.
  - by apply rounded_lt.
Qed.

(** An exact quotient is its own rounding. *)
Example nearest_b64_1920 :
  nearest_b64 (inject_Z (1080 * 16) / inject_Z 9) 1920.
Proof.
  split.
  - apply (is_b64_int 1920). lia.
  - intros x _. apply Qle_trans with 0%Q; [by vm_compute|apply Qabs_nonneg].
Qed.

(** ** The scenarios of the specification *)

Example scenario_conforming :
  classify 1920 1080 (16, 9) (1 # 5) = Ok Conforming.
Proof. reflexivity. Qed.

Example scenario_resizable :
  classify 1900 1080 (16, 9) (1 # 5) = Ok Resizable
  ∧ get_closest_shape 1900 1080 (multiples 213 (16, 9)) (16, 9)
    = Ok (1071, 1904).
Proof. split; reflexivity. Qed.

Example scenario_crop :
  classify 1000 1000 (16, 9) (1 # 20) = Ok CropRequired
  ∧ get_biggest_shape_contained_in_image (1000, 1000)
      (multiples 213 (16, 9)) = Ok (558, 992)
  ∧ crop_margins (1000, 1000) (558, 992) = ((221, 4), (221, 4)).
Proof. split_and!; reflexivity. Qed.

(** A run on the three images of the scenarios: the first is skipped, the
    second resized and the third cropped, in the order of the names. *)
Example scenario_run :
  let img h w := Some (Image (h, w) (fun i j => (i, j, 0))) in
  let fs : directory :=
    <["c.png" := img 1000 1000]>
      (<["b.png" := img 1080 1900]> (<["a.png" := img 1080 1920]> ∅)) in
  let run := main (fun src _ i j => img_at src i j) fs (16, 9) (1 # 5) false in
  map (fun fw : string * image => (fw.1, img_shape fw.2)) run.1
    = [("b.png", (1071, 1904)); ("c.png", (558, 992))]
  ∧ run.2 = Ok ().
Proof. vm_compute. done. Qed.

(** A run that reaches the index [-1]: the only image is lower than the
    first valid shape, the last valid shape (99, 176) is selected and the
    slices with negative bounds keep 8 rows and 38 columns. *)
Example scenario_wrap :
  let fs : directory :=
    <["t.png" := Some (Image (8, 100) (fun i j => (i, j, 0)))]> ∅ in
  let run := main (fun src _ i j => img_at src i j) fs (16, 9) (1 # 5) false in
  map (fun fw : string * image => (fw.1, img_shape fw.2)) run.1
    = [("t.png", (8, 38))].
Proof. vm_compute. done. Qed.

(** ** Further properties of the classifier *)

Lemma true_div_scale (k a b : Z) :
  k ≠ 0 → b ≠ 0 →
  (inject_Z (k * a) / inject_Z (k * b) == inject_Z a / inject_Z b)%Q.
Proof.
  intros Hk Hb. rewrite !inject_Z_mult.
  assert (¬ inject_Z k == 0)%Q.
  { change 0%Q with (inject_Z 0). rewrite inject_Z_injective. done. }
  assert (¬ inject_Z b == 0)%Q.
  { change 0%Q with (inject_Z 0). rewrite inject_Z_injective. done. }
  by field.
Qed.

(** X3: [is_resizable] only depends on the two proportions: scaling the image
    or the ratio by a non-zero factor does not change its answer, errors
    included. *)
Theorem is_resizable_scale (k k' w h rw rh : Z) (margin : Q) :
  k ≠ 0 → k' ≠ 0 →
  is_resizable (k * w) (k * h) margin (k' * rw, k' * rh)
  = is_resizable w h margin (rw, rh).
Proof.
  intros Hk Hk'. unfold is_resizable, true_div. cbn [fst snd].
  destruct (Z.eqb_spec h 0) as [->|Hh].
  - by rewrite Z.mul_0_r.
  - destruct (Z.eqb_spec (k * h) 0) as [|_]; [lia|].
    destruct (Z.eqb_spec rh 0) as [->|Hrh].
    + by rewrite Z.mul_0_r.
    + destruct (Z.eqb_spec (k' * rh) 0) as [|_]; [lia|].
      simpl_result. f_equal. apply Qleb_comp; [|reflexivity].
      apply Qabs_wd. unfold Qminus.
      apply Qplus_comp; [|apply Qopp_comp]; by apply true_div_scale.
Qed.

Lemma is_resizable_scale_witness :
  is_resizable (3 * 1900) (3 * 1080) (1 # 5) (2 * 16, 2 * 9)
  = is_resizable 1900 1080 (1 # 5) (16, 9).
Proof. apply is_resizable_scale; lia. Defined.

(** X2: a larger margin accepts whatever a smaller one does: an image that
    is resized stays resized, and an image that is cropped with the larger
    margin is cropped with the smaller one. *)
Theorem classify_margin_monotone (w h : Z) (r : ratio) (margin margin' : Q) :
  (margin <= margin')%Q →
  (classify w h r margin = Ok Resizable →
   classify w h r margin' = Ok Resizable)
  ∧ (classify w h r margin' = Ok CropRequired →
     classify w h r margin = Ok CropRequired).
Proof.
  intros Hle. unfold classify, is_resizable.
  destruct (is_good_ratio w h r) as [[|]|e]; simpl_result;
    [split; discriminate| |split; discriminate].
  destruct (true_div w h) as [a|e]; simpl_result; [|split; discriminate].
  destruct (true_div r.1 r.2) as [b|e]; simpl_result; [|split; discriminate].
  destruct (Qle_bool (Qabs (a - b)) margin) eqn:E1,
           (Qle_bool (Qabs (a - b)) margin') eqn:E2;
    split; try done.
  - apply Qle_bool_iff in E1.
    assert (Hf : Qle_bool (Qabs (a - b)) margin' = true).
    { apply Qle_bool_iff. by eapply Qle_trans. }
    congruence.
  - apply Qle_bool_iff in E1.
    assert (Hf : Qle_bool (Qabs (a - b)) margin' = true).
    { apply Qle_bool_iff. by eapply Qle_trans. }
    congruence.
Qed.

Lemma classify_margin_monotone_witness :
  classify 1900 1080 (16, 9) (1 # 2) = Ok Resizable
  ∧ classify 1000 1000 (16, 9) (1 # 100) = Ok CropRequired.
Proof.
  split.
  - apply (classify_margin_monotone 1900 1080 (16, 9) (1 # 5) (1 # 2));
      [by vm_compute|reflexivity].
  - apply (classify_margin_monotone 1000 1000 (16, 9) (1 # 100) (1 # 20));
      [by vm_compute|reflexivity].
Defined.

(** ** Further properties of the valid shapes *)

Lemma multiple_good_ratio (k : Z) (r : ratio) :
  r.2 ≠ 0 → is_good_ratio (k * r.1) (k * r.2) r = Ok true.
Proof.
  intros Hr. rewrite is_good_ratio_eq by done.
  replace (k * r.2 * r.1) with (k * r.1 * r.2) by lia.
  rewrite Z.quot_mul by done. by rewrite Z.eqb_refl.
Qed.


Lemma elem_of_quotients_of (shapes : list shape) (r : ratio) (x : Z) :
  x ∈ quotients_of shapes r
  ↔ ∃ s : shape, s ∈ shapes ∧ (x = Z.quot s.1 r.1 ∨ x = Z.quot s.2 r.2).
Proof.
  unfold quotients_of. induction shapes as [|s shapes IH]; simpl.
  - split; [by intros ?%not_elem_of_nil|].
    by intros (s & ?%not_elem_of_nil & _).
  - rewrite !elem_of_cons, IH. split.
    + intros [->|[->|(s' & Hs' & Hx)]].
      * exists s. split; [left|]; auto.
      * exists s. split; [left|]; auto.
      * exists s'. split; [by right|done].
    + intros (s' & [->|Hs']%elem_of_cons & Hx).
      * destruct Hx; auto.
      * right. right. by exists s'.
Qed.




(** ** Further properties of the crop *)

Lemma scan_shapes_bound (s : shape) (vs : list shape) (idx : nat)
    (last : option nat) :
  vs ≠ [] →
  ∃ i, scan_shapes s vs idx last = Some i
       ∧ (idx ≤ i < idx + length vs)%nat.
Proof.
  revert idx last. induction vs as [|v vs IH]; intros idx last Hne; [done|].
  simpl. destruct (any_lt s v).
  - exists idx. split; [done|lia].
  - destruct vs as [|v' vs].
    + exists idx. split; [done|simpl; lia].
    + destruct (IH (S idx) (Some idx)) as (i & Hi & Hb); [done|].
      exists i. split; [done|]. simpl in *. lia.
Qed.

Lemma getitem_last_member {A : Type} (l : list A) :
  l ≠ [] → ∃ x, getitem l (-1) = Ok x ∧ x ∈ l.
Proof.
  intros Hne. destruct (exists_last Hne) as (l' & x & ->).
  exists x. split; [apply getitem_from_end|].
  apply elem_of_app. right. left.
Qed.

(** X9: [get_biggest_shape_contained_in_image] raises [UnboundLocalError] on
    an empty sequence and nothing on any other: there it always returns a
    shape of the sequence, never an index error. *)
Theorem get_biggest_returns_member (s : shape) (vs : list shape) :
  (vs = [] →
   get_biggest_shape_contained_in_image s vs = Raise UnboundLocalError)
  ∧ (vs ≠ [] →
     ∃ v, get_biggest_shape_contained_in_image s vs = Ok v ∧ v ∈ vs).
Proof.
  split; [by intros ->|]. intros Hne.
  unfold get_biggest_shape_contained_in_image.
  destruct (scan_shapes_bound s vs 0 None Hne) as (i & -> & Hi).
  destruct i as [|i].
  - by apply getitem_last_member.
  - replace (Z.of_nat (S i) - 1) with (Z.of_nat i) by lia.
    destruct (lookup_lt_is_Some_2 vs i) as [v Hv]; [lia|].
    exists v. split; [by apply getitem_lookup|].
    by eapply list_elem_of_lookup_2.
Qed.

Lemma get_biggest_returns_member_witness :
  ∃ v, get_biggest_shape_contained_in_image (8, 100) [(9, 16); (18, 32)]
       = Ok v ∧ v ∈ [(9, 16); (18, 32)].
Proof.
  apply (get_biggest_returns_member (8, 100) [(9, 16); (18, 32)]).
  discriminate.
Defined.

(** X10: on a sequence of increasing shapes whose first shape fits in the image
    and one of whose shapes does not,
    [get_biggest_shape_contained_in_image] returns a shape that fits and
    that no fitting shape of the sequence exceeds. *)
Theorem get_biggest_largest_contained (s : shape) (vs : list shape) :
  increasing vs →
  (∃ u : shape, vs !! 0%nat = Some u ∧ u.1 ≤ s.1 ∧ u.2 ≤ s.2) →
  (∃ v : shape, v ∈ vs ∧ (s.1 < v.1 ∨ s.2 < v.2)) →
  ∃ u : shape,
    get_biggest_shape_contained_in_image s vs = Ok u
    ∧ u ∈ vs ∧ u.1 ≤ s.1 ∧ u.2 ≤ s.2
    ∧ ∀ t : shape, t ∈ vs → t.1 ≤ s.1 → t.2 ≤ s.2 → t.1 ≤ u.1 ∧ t.2 ≤ u.2.
Proof.
  intros Hinc (u0 & Hu0 & H1 & H2) (v & Hv & Hlt).
  destruct (get_biggest_when_exceeded s vs Hinc) as (u & Hu & Hin & Hc & Hmax).
  - exists u0. by split.
  - exists v. split; [done|]. unfold contained. lia.
  - exists u. destruct Hc. split_and!; [done..|].
    intros t Ht Ht1 Ht2. by apply Hmax.
Qed.

Lemma get_biggest_largest_contained_witness :
  ∃ u : shape,
    get_biggest_shape_contained_in_image (20, 40)
      [(9, 16); (18, 32); (27, 48)] = Ok u
    ∧ u.1 ≤ 20 ∧ u.2 ≤ 40.
Proof.
  destruct (get_biggest_largest_contained (20, 40)
              [(9, 16); (18, 32); (27, 48)]) as (u & Hu & _ & H1 & H2 & _).
  - apply (multiples_increasing 3 16 9); lia.
  - exists (9, 16). simpl. split; [done|lia].
  - exists (27, 48). split; [|simpl; lia].
    apply list_elem_of_In. simpl. auto.
  - by exists u.
Defined.

Lemma get_biggest_min_quotient (H W rw rh m : Z) :
  0 < rw → 0 < rh → rh ≤ H → rw ≤ W → (H < m * rh ∨ W < m * rw) →
  1 ≤ Z.min (H / rh) (W / rw) < m
  ∧ get_biggest_shape_contained_in_image (H, W) (multiples m (rw, rh))
    = Ok (Z.min (H / rh) (W / rw) * rh, Z.min (H / rh) (W / rw) * rw).
Proof.
  intros Hrw Hrh HH HW Hlast.
  set (K := Z.min (H / rh) (W / rw)).
  assert (HKH : K * rh ≤ H).
  { pose proof (Z.mul_div_le H rh Hrh). nia. }
  assert (HKW : K * rw ≤ W).
  { pose proof (Z.mul_div_le W rw Hrw). nia. }
  assert (HK1 : 1 ≤ K).
  { assert (1 ≤ H / rh) by (apply Z.div_le_lower_bound; lia).
    assert (1 ≤ W / rw) by (apply Z.div_le_lower_bound; lia). lia. }
  assert (HKm : K < m) by nia.
  split; [done|].
  assert (Hsucc : H < (K + 1) * rh ∨ W < (K + 1) * rw).
  { pose proof (Z.mul_succ_div_gt H rh Hrh).
    pose proof (Z.mul_succ_div_gt W rw Hrw).
    destruct (Z.min_spec (H / rh) (W / rw)) as [[_ HKeq]|[_ HKeq]];
      fold K in HKeq; rewrite HKeq; [left|right]; nia. }
  (* the shapes for k = 1..K fit, the one for k = K + 1 does not *)
  assert (Hsplit : multiples m (rw, rh)
    = take (Z.to_nat (K - 1)) (multiples m (rw, rh))
      ++ (K * rh, K * rw) :: ((K + 1) * rh, (K + 1) * rw)
      :: drop (Z.to_nat (K + 1)) (multiples m (rw, rh))).
  { rewrite <- (take_drop (Z.to_nat (K - 1)) (multiples m (rw, rh))) at 1.
    f_equal.
    rewrite (drop_S _ (K * rh, K * rw)).
    2:{ rewrite multiples_lookup_lt by lia. cbn [fst snd]. do 3 f_equal; lia. }
    f_equal.
    rewrite (drop_S _ ((K + 1) * rh, (K + 1) * rw)).
    2:{ rewrite multiples_lookup_lt by lia. cbn [fst snd]. do 3 f_equal; lia. }
    do 2 f_equal. lia. }
  rewrite Hsplit. apply get_biggest_at_break.
  - intros x [i Hi]%list_elem_of_lookup_1.
    assert (Hx : multiples m (rw, rh) !! i = Some x ∧ (i < Z.to_nat K)%nat).
    { destruct (decide (i < Z.to_nat (K - 1))%nat) as [Hlt|Hge].
      - rewrite lookup_app_l in Hi by (rewrite length_take, multiples_length; lia).
        rewrite lookup_take_lt in Hi by done. split; [done|lia].
      - rewrite lookup_app_r in Hi by (rewrite length_take, multiples_length; lia).
        rewrite length_take, multiples_length in Hi.
        replace (Z.to_nat (K - 1) `min` Z.to_nat m)%nat
          with (Z.to_nat (K - 1)) in Hi by lia.
        destruct (i - Z.to_nat (K - 1))%nat as [|j] eqn:Hj; [|by destruct j].
        simpl in Hi. injection Hi as <-.
        assert (i = Z.to_nat (K - 1)) as -> by lia.
        rewrite multiples_lookup_lt by lia. cbn [fst snd].
        split; [do 3 f_equal; lia|lia]. }
    destruct Hx as [Hx Hlt]. apply multiples_lookup in Hx as [-> _].
    unfold contained. simpl. nia.
  - unfold contained. simpl. lia.
Qed.

(** X11: for a positive ratio and an image in which the first valid shape
    (rh, rw) fits and the last one does not, [crop_image] writes one image,
    to the file itself: the centre crop to the largest multiple of
    (rh, rw) that fits, k = min(H / rh, W / rw), which passes
    [is_good_ratio]. *)
Theorem crop_image_largest_multiple (filename : string) (img : image)
    (rw rh m : Z) :
  let H := (img_shape img).1 in
  let W := (img_shape img).2 in
  let k := Z.min (H / rh) (W / rw) in
  0 < rw → 0 < rh → rh ≤ H → rw ≤ W → (H < m * rh ∨ W < m * rw) →
  crop_image filename img (multiples m (rw, rh))
    = ([(filename, crop_to img (k * rh, k * rw))], Ok ())
  ∧ img_shape (crop_to img (k * rh, k * rw)) = (k * rh, k * rw)
  ∧ k * rh ≤ H ∧ k * rw ≤ W
  ∧ (H < (k + 1) * rh ∨ W < (k + 1) * rw)
  ∧ is_good_ratio (k * rw) (k * rh) (rw, rh) = Ok true.
Proof.
  intros H W k Hrw Hrh HH HW Hlast.
  destruct (get_biggest_min_quotient H W rw rh m) as [[Hk1 Hkm] Hbig];
    [done..|]. fold k in Hk1, Hkm, Hbig.
  assert (HkH : k * rh ≤ H).
  { pose proof (Z.mul_div_le H rh Hrh). unfold k. nia. }
  assert (HkW : k * rw ≤ W).
  { pose proof (Z.mul_div_le W rw Hrw). unfold k. nia. }
  assert (Hshape : img_shape (crop_to img (k * rh, k * rw))
                   = (k * rh, k * rw)).
  { apply crop_to_shape; simpl; fold H W; nia. }
  split_and!; [|done|done|done| |].
  - unfold crop_image. replace (img_shape img) with (H, W)
      by (unfold H, W; by destruct (img_shape img)).
    rewrite Hbig. unfold lift, imwrite, image_empty, mbind, io_bind.
    simpl. rewrite Hshape. simpl.
    destruct (Z.leb_spec (k * rh) 0); [nia|].
    destruct (Z.leb_spec (k * rw) 0); [nia|]. done.
  - pose proof (Z.mul_succ_div_gt H rh Hrh).
    pose proof (Z.mul_succ_div_gt W rw Hrw).
    destruct (Z.min_spec (H / rh) (W / rw)) as [[_ Hk]|[_ Hk]];
      fold k in Hk; rewrite Hk; [left|right]; nia.
  - apply (multiple_good_ratio k (rw, rh)). simpl. lia.
Qed.

Lemma crop_image_largest_multiple_witness :
  crop_image "c.png" (Image (1000, 1000) (fun i j => (i, j, 0)))
    (multiples 213 (16, 9))
  = ([("c.png",
       crop_to (Image (1000, 1000) (fun i j => (i, j, 0))) (558, 992))],
     Ok ()).
Proof.
  apply (crop_image_largest_multiple "c.png"
           (Image (1000, 1000) (fun i j => (i, j, 0))) 16 9 213);
    simpl; lia.
Defined.

Lemma slice_range_inside (n a b : Z) :
  0 ≤ n →
  0 ≤ (slice_range n a b).1
  ∧ 0 ≤ (slice_range n a b).2
  ∧ (slice_range n a b).1 + (slice_range n a b).2 ≤ n.
Proof.
  intros Hn. unfold slice_range, slice_index. simpl.
  destruct (Z.ltb_spec a 0), (Z.ltb_spec b 0); lia.
Qed.

(** X12: whatever shape is selected, the crop keeps a window of the old image:
    the result is never larger than the image on either axis, and every
    pixel of it is the pixel of the old image at a fixed offset, the window
    lying inside the old image. *)
Theorem crop_to_inside (img : image) (new_shape : shape) :
  0 ≤ (img_shape img).1 → 0 ≤ (img_shape img).2 →
  ∃ r0 c0 : Z,
    0 ≤ r0 ∧ 0 ≤ (img_shape (crop_to img new_shape)).1
    ∧ r0 + (img_shape (crop_to img new_shape)).1 ≤ (img_shape img).1
    ∧ 0 ≤ c0 ∧ 0 ≤ (img_shape (crop_to img new_shape)).2
    ∧ c0 + (img_shape (crop_to img new_shape)).2 ≤ (img_shape img).2
    ∧ ∀ i j, img_at (crop_to img new_shape) i j = img_at img (r0 + i) (c0 + j).
Proof.
  intros HH HW. unfold crop_to.
  destruct (crop_margins (img_shape img) new_shape)
    as [[left_margin up_margin] [right_margin down_margin]].
  destruct (img_shape img) as [width height] eqn:Hshape. simpl in HH, HW.
  unfold image_slice. rewrite Hshape. cbn [fst snd img_shape img_at].
  pose proof (slice_range_inside width left_margin (width - right_margin) HH).
  pose proof (slice_range_inside height up_margin (height - down_margin) HW).
  eexists _, _. split_and!; [..|reflexivity]; lia.
Qed.

Lemma crop_to_inside_witness :
  ∃ r0 c0 : Z,
    0 ≤ r0 ∧ 0 ≤ c0
    ∧ ∀ i j, img_at (crop_to (Image (8, 100) (fun i j => (i, j, 0)))
                       (99, 176)) i j
             = (r0 + i, c0 + j, 0).
Proof.
  destruct (crop_to_inside (Image (8, 100) (fun i j => (i, j, 0))) (99, 176))
    as (r0 & c0 & H1 & _ & _ & H2 & _ & _ & H3); [simpl; lia..|].
  exists r0, c0. split_and!; [done..|]. intros i j. by rewrite H3.
Defined.

(** ** Further properties of a run *)

Lemma elem_of_filenames (fs : directory) (filename : string) :
  filename ∈ sorted (listdir fs) ↔ is_Some (fs !! filename).
Proof.
  unfold sorted, listdir. rewrite merge_sort_Permutation.
  rewrite list_elem_of_fmap. split.
  - intros ([f x] & -> & Hin). apply elem_of_map_to_list in Hin. by exists x.
  - intros [x Hx]. exists (filename, x). split; [done|].
    by apply elem_of_map_to_list.
Qed.

Lemma NoDup_filenames (fs : directory) : NoDup (sorted (listdir fs)).
Proof.
  unfold sorted, listdir. rewrite merge_sort_Permutation.
  apply NoDup_fst_map_to_list.
Qed.

Lemma mapM_shape_of_None (wallpapers : list (option image)) :
  None ∈ wallpapers → mapM shape_of wallpapers = Raise AttributeError.
Proof.
  induction wallpapers as [|[img|] wallpapers IH]; simpl.
  - by intros ?%not_elem_of_nil.
  - intros [[=]|Hin]%elem_of_cons. simpl_result. by rewrite IH.
  - done.
Qed.

Lemma mapM_shape_of_Ok (wallpapers : list (option image))
    (shapes : list shape) :
  mapM shape_of wallpapers = Ok shapes → None ∉ wallpapers.
Proof.
  intros Hok Hin. by rewrite mapM_shape_of_None in Hok.
Qed.

Lemma elem_of_concat {A : Type} (x : A) (ls : list (list A)) :
  x ∈ concat ls ↔ ∃ l, x ∈ l ∧ l ∈ ls.
Proof.
  induction ls as [|l ls IH]; simpl.
  - split; [by intros ?%not_elem_of_nil|].
    by intros (l & _ & ?%not_elem_of_nil).
  - rewrite elem_of_app, IH. split.
    + intros [Hx|(l' & Hx & Hl')].
      * exists l. split; [done|left].
      * exists l'. split; [done|by right].
    + intros (l' & Hx & [->|Hl']%elem_of_cons); [by left|].
      right. by exists l'.
Qed.

Section Run.

Variable interpolate : image → shape → Z → Z → pixel.

(** The trace of a loop is made of the traces of the turns it takes, in
    their order; a loop that returns has taken them all, and each turn
    has returned. *)
Lemma for_each_turns {A : Type} (l : list A) (body : A → io ()) :
  ∃ k, (for_each l body).1 = concat (map (fun x => (body x).1) (take k l))
       ∧ ((for_each l body).2 = Ok () →
          (for_each l body).1 = concat (map (fun x => (body x).1) l)
          ∧ ∀ x, x ∈ l → (body x).2 = Ok ()).
Proof.
  induction l as [|x l (k & Hk & Hok)].
  - exists 0%nat. split; [done|]. intros _. split; [done|].
    by intros x ?%not_elem_of_nil.
  - simpl. unfold mbind, io_bind.
    destruct (body x) as [tr [[]|e]] eqn:Hx; cbn [fst snd].
    + exists (S k). split; [simpl; by rewrite Hx, Hk|].
      intros Hres. destruct (Hok Hres) as [Htr Hall]. split.
      * by rewrite Htr.
      * intros y [->|Hy]%elem_of_cons; [by rewrite Hx|by apply Hall].
    + exists 1%nat. split; [|done]. simpl. rewrite Hx. simpl.
      by rewrite app_nil_r.
Qed.

(** What one turn of the loop of [main] does for a decoded image. *)
Lemma process_cases (vs : list shape) (r : ratio) (margin : Q)
    (img : image) (filename : string) :
  let h := (img_shape img).1 in
  let w := (img_shape img).2 in
  (is_good_ratio w h r = Ok true
   ∧ process interpolate vs r margin (Some img, filename) = ([], Ok ()))
  ∨ (∃ img', is_good_ratio w h r = Ok false
       ∧ process interpolate vs r margin (Some img, filename)
         = ([(filename, img')], Ok ())
       ∧ image_empty img' = false
       ∧ ((classify w h r margin = Ok Resizable
           ∧ ∃ s, get_closest_shape w h vs r = Ok s ∧ img_shape img' = s)
          ∨ (classify w h r margin = Ok CropRequired
             ∧ ∃ s, get_biggest_shape_contained_in_image (h, w) vs = Ok s
                    ∧ img' = crop_to img s)))
  ∨ (∃ e, is_good_ratio w h r ≠ Ok true
       ∧ process interpolate vs r margin (Some img, filename)
         = ([], Raise e)).
Proof.
  intros h w. unfold process, classify.
  destruct (img_shape img) as [h0 w0] eqn:Hshape. subst h w.
  cbn [fst snd].
  destruct (is_good_ratio w0 h0 r) as [[|]|e] eqn:Hgood; simpl_result.
  - left. by split.
  - destruct (is_resizable w0 h0 margin r) as [[|]|e]; simpl_result.
    + (* resize *)
      unfold lift, mbind, io_bind, resize_image. cbn [fst snd app].
      rewrite Hshape.
      destruct (get_closest_shape w0 h0 vs r) as [s|e] eqn:Hs;
        unfold lift, mbind, io_bind; cbn [fst snd app];
        [|right; right; by exists e].
      destruct (cv2_resize interpolate img (s.2, s.1)) as [img'|e] eqn:Hr;
        cbn [fst snd app]; [|right; right; by exists e].
      unfold imwrite. destruct (image_empty img') eqn:He; cbn [fst snd app].
      * right; right. by exists Cv2Error.
      * right; left. exists img'. split_and!; [done..|].
        left. split; [done|]. exists s. split; [done|].
        unfold cv2_resize in Hr. cbn [fst snd] in Hr.
        destruct (image_empty img || (s.2 <=? 0) || (s.1 <=? 0)); [done|].
        injection Hr as <-. by destruct s.
    + (* crop *)
      unfold lift, mbind, io_bind, crop_image. cbn [fst snd app].
      rewrite Hshape.
      destruct (get_biggest_shape_contained_in_image (h0, w0) vs)
        as [s|e] eqn:Hs;
        unfold lift, mbind, io_bind; cbn [fst snd app];
        [|right; right; by exists e].
      unfold imwrite. destruct (image_empty (crop_to img s)) eqn:He;
        cbn [fst snd app].
      * right; right. by exists Cv2Error.
      * right; left. exists (crop_to img s). split_and!; [done..|].
        right. split; [done|]. by exists s.
    + right; right. by exists e.
  - right; right. by exists e.
Qed.

(** The items of the loop of [main]: every entry with what it decodes
    to. *)
Lemma items_lookup (fs : directory) (filenames : list string)
    (k : nat) (wallpaper : option image) (filename : string) :
  (wallpaper, filename) ∈ take k (zip (load_images filenames fs) filenames) →
  filename ∈ filenames ∧ wallpaper = load_image filename fs.
Proof.
  intros Hin%subseteq_take. split.
  - apply (list_elem_of_fmap_2 snd) in Hin.
    rewrite snd_zip in Hin; [done|].
    unfold load_images. by rewrite length_map.
  - by eapply zip_load_images.
Qed.

Lemma mapM_shape_of_cases (wallpapers : list (option image)) :
  (None ∈ wallpapers ∧ mapM shape_of wallpapers = Raise AttributeError)
  ∨ ((None ∉ wallpapers) ∧ (∃ shapes, mapM shape_of wallpapers = Ok shapes)).
Proof.
  induction wallpapers as [|[img|] wallpapers IH].
  - right. split; [apply not_elem_of_nil|by exists []].
  - destruct IH as [[Hin Hr]|[Hnin [shapes Hs]]].
    + left. split; [by right|]. simpl. simpl_result. by rewrite Hr.
    + right. split.
      * by intros [[=]|?]%elem_of_cons.
      * exists (img_shape img :: shapes). simpl. simpl_result.
        by rewrite Hs.
  - left. split; [left|done].
Qed.

Lemma load_images_None (fs : directory) :
  None ∈ load_images (sorted (listdir fs)) fs ↔ ∃ f, fs !! f = Some None.
Proof.
  unfold load_images. rewrite elem_of_map. split.
  - intros (f & Hf & [x Hx]%elem_of_filenames). exists f.
    unfold load_image in Hf. rewrite Hx in *. by destruct x.
  - intros [f Hf]. exists f. split.
    + unfold load_image. by rewrite Hf.
    + apply elem_of_filenames. by rewrite Hf.
Qed.

Lemma zip_load_images_elem (fs : directory) (filenames : list string)
    (filename : string) :
  filename ∈ filenames →
  (load_image filename fs, filename)
  ∈ zip (load_images filenames fs) filenames.
Proof.
  unfold load_images. induction filenames as [|f fns IH]; simpl.
  - by intros ?%not_elem_of_nil.
  - intros [->|Hin]%elem_of_cons; [left|right; by apply IH].
Qed.

(** How a run goes: it stops on an entry that is no image, or on the
    computation of the valid shapes, or enters the loop. *)
Lemma main_cases (fs : directory) (r : ratio) (margin : Q) (verbose : bool) :
  let filenames := sorted (listdir fs) in
  let wallpapers := load_images filenames fs in
  ((∃ f, fs !! f = Some None)
   ∧ main interpolate fs r margin verbose = ([], Raise AttributeError))
  ∨ ((None ∉ wallpapers)
     ∧ (∃ shapes,
          mapM shape_of wallpapers = Ok shapes
          ∧ ((∃ e, compute_all_valid_shapes shapes r = Raise e
                   ∧ main interpolate fs r margin verbose = ([], Raise e))
             ∨ (∃ vs, compute_all_valid_shapes shapes r = Ok vs
                      ∧ main interpolate fs r margin verbose
                        = for_each (zip wallpapers filenames)
                            (process interpolate vs r margin))))).
Proof.
  intros filenames wallpapers. unfold main. fold filenames wallpapers.
  destruct (mapM_shape_of_cases wallpapers) as [[Hin Hr]|[Hnin [shapes Hs]]].
  - left. split; [by apply load_images_None|]. by rewrite Hr.
  - right. split; [done|]. exists shapes. split; [done|]. rewrite Hs.
    unfold lift, mbind, io_bind. cbn [fst snd app].
    destruct (compute_all_valid_shapes shapes r) as [vs|e].
    + right. exists vs. split; [done|]. cbn [fst snd app].
      by destruct (for_each _ _).
    + left. by exists e.
Qed.

(** Every write of a run is the one write of the turn of a decoded image
    that does not pass [is_good_ratio]. *)
Lemma main_write_inv (fs : directory) (r : ratio) (margin : Q)
    (verbose : bool) (f : string) (img' : image) :
  (f, img') ∈ (main interpolate fs r margin verbose).1 →
  ∃ shapes vs img,
    compute_all_valid_shapes shapes r = Ok vs
    ∧ fs !! f = Some (Some img)
    ∧ process interpolate vs r margin (Some img, f) = ([(f, img')], Ok ()).
Proof.
  intros Hin.
  destruct (main_cases fs r margin verbose)
    as [[_ Hm]|(_ & shapes & _ & [(e & _ & Hm)|(vs & Hvs & Hm)])];
    rewrite Hm in Hin; [by apply not_elem_of_nil in Hin..|].
  destruct (for_each_turns
              (zip (load_images (sorted (listdir fs)) fs) (sorted (listdir fs)))
              (process interpolate vs r margin)) as (k & Hk & _).
  rewrite Hk in Hin.
  apply elem_of_concat in Hin as (tr & Hin & Htr).
  apply elem_of_map in Htr as ([wallpaper fn] & -> & Hitem).
  apply items_lookup in Hitem as [Hfn ->].
  destruct (load_image fn fs) as [img|] eqn:Hload;
    [|by apply not_elem_of_nil in Hin].
  exists shapes, vs, img.
  destruct (process_cases vs r margin img fn)
    as [[_ Hp]|[(img'' & _ & Hp & _)|(e & _ & Hp)]];
    rewrite Hp in Hin; [by apply not_elem_of_nil in Hin| |
                          by apply not_elem_of_nil in Hin].
  apply list_elem_of_singleton in Hin. injection Hin as -> ->.
  split_and!; [done| |done]. by apply load_image_Some.
Qed.

End Run.

Section RunProperties.

Variable interpolate : image → shape → Z → Z → pixel.

Lemma apply_writes_dom (tr : list (string * image)) (fs : directory) :
  (∀ fw, fw ∈ tr → is_Some (fs !! fw.1)) →
  dom (apply_writes tr fs) = dom fs.
Proof.
  unfold apply_writes. revert fs.
  induction tr as [|fw tr IH]; intros fs Hall; [done|].
  simpl. rewrite IH.
  - rewrite dom_insert_L.
    apply subseteq_union_1_L, singleton_subseteq_l.
    apply elem_of_dom, Hall. left.
  - intros fw' Hfw'. rewrite lookup_insert.
    case_decide; [done|]. apply Hall. by right.
Qed.

Lemma apply_writes_lookup (tr : list (string * image)) (fs : directory)
    (f : string) (x : option image) :
  apply_writes tr fs !! f = Some x →
  (∃ img', (f, img') ∈ tr ∧ x = Some img')
  ∨ (fs !! f = Some x ∧ ∀ fw, fw ∈ tr → fw.1 ≠ f).
Proof.
  unfold apply_writes. revert fs.
  induction tr as [|[f0 img0] tr IH]; intros fs Hx.
  - right. split; [done|]. by intros fw ?%not_elem_of_nil.
  - simpl in Hx. destruct (IH _ Hx) as [(img' & Hin & ->)|[Hfs Hno]].
    + left. exists img'. split; [by right|done].
    + destruct (decide (f0 = f)) as [->|Hne].
      * rewrite lookup_insert_eq in Hfs. injection Hfs as <-.
        left. exists img0. split; [left|done].
      * rewrite lookup_insert_ne in Hfs by done.
        right. split; [done|].
        intros fw [->|Hfw]%elem_of_cons; [done|by apply Hno].
Qed.

Lemma turns_NoDup (items : list (option image * string))
    (body : option image * string → io ()) :
  NoDup items.*2 →
  (∀ item, (body item).1 = [] ∨ ∃ img', (body item).1 = [(item.2, img')]) →
  NoDup (concat (map (fun x => (body x).1) items)).*1.
Proof.
  intros Hnd Hbody. induction items as [|item items IH]; [constructor|].
  simpl in *. apply NoDup_cons in Hnd as [Hnin Hnd].
  rewrite fmap_app. destruct (Hbody item) as [->|[img' ->]]; simpl.
  - by apply IH.
  - constructor; [|by apply IH].
    intros Hin. apply Hnin.
    apply list_elem_of_fmap in Hin as ([f x] & Hf & Hin). simpl in Hf.
    apply elem_of_concat in Hin as (tr & Hin & Htr).
    apply elem_of_map in Htr as (item' & -> & Hitem').
    destruct (Hbody item') as [Hnil|[img'' Hone]].
    + rewrite Hnil in Hin. by apply not_elem_of_nil in Hin.
    + rewrite Hone in Hin. apply list_elem_of_singleton in Hin.
      injection Hin as -> ->. rewrite Hf.
      by apply (list_elem_of_fmap_2 snd).
Qed.

Lemma process_at_most_one (vs : list shape) (r : ratio) (margin : Q)
    (item : option image * string) :
  (process interpolate vs r margin item).1 = []
  ∨ ∃ img', (process interpolate vs r margin item).1 = [(item.2, img')].
Proof.
  destruct item as [[img|] f]; [|by left].
  destruct (process_cases interpolate vs r margin img f)
    as [[_ ->]|[(img' & _ & -> & _)|(e & _ & ->)]]; [by left| |by left].
  right. by exists img'.
Qed.

(** X14: a run stops before the loop, without a write, on an empty directory
    (there is no shape to take the greatest quotient of) and on a
    directory with an entry that [cv2.imread] cannot decode. *)
Theorem main_fails_before_writing (fs : directory) (r : ratio) (margin : Q)
    (verbose : bool) :
  (fs = ∅ → main interpolate fs r margin verbose = ([], Raise ValueError))
  ∧ ((∃ f, fs !! f = Some None) →
     main interpolate fs r margin verbose = ([], Raise AttributeError)).
Proof.
  split.
  - intros ->. unfold main, listdir. by rewrite map_to_list_empty.
  - intros [f Hf].
    destruct (main_cases interpolate fs r margin verbose)
      as [[_ Hm]|(Hnin & _)]; [done|].
    exfalso. apply Hnin. apply load_images_None. by exists f.
Qed.

(** X15: whatever a run does and however it ends, each of its writes goes to
    an entry of the directory that holds an image failing [is_good_ratio],
    and puts an image with pixels there; no file is written twice, and the
    directory has the same entries afterwards. *)
Theorem main_writes_in_place (fs : directory) (r : ratio) (margin : Q)
    (verbose : bool) :
  let tr := (main interpolate fs r margin verbose).1 in
  (∀ f img', (f, img') ∈ tr →
     image_empty img' = false
     ∧ ∃ img, fs !! f = Some (Some img)
              ∧ is_good_ratio (img_shape img).2 (img_shape img).1 r
                = Ok false)
  ∧ NoDup tr.*1
  ∧ dom (apply_writes tr fs) = dom fs.
Proof.
  intros tr.
  assert (Hw : ∀ f img', (f, img') ∈ tr →
            image_empty img' = false
            ∧ ∃ img, fs !! f = Some (Some img)
                     ∧ is_good_ratio (img_shape img).2 (img_shape img).1 r
                       = Ok false).
  { intros f img' Hin.
    apply main_write_inv in Hin as (shapes & vs & img & _ & Hf & Hp).
    destruct (process_cases interpolate vs r margin img f)
      as [[_ Hp']|[(img'' & Hgood & Hp' & He & _)|(e & _ & Hp')]];
      rewrite Hp' in Hp; [done| |done].
    injection Hp as ->. split; [done|]. by exists img. }
  split_and!; [done| |].
  - subst tr.
    destruct (main_cases interpolate fs r margin verbose)
      as [[_ ->]|(_ & shapes & _ & [(e & _ & ->)|(vs & _ & ->)])];
      [constructor..|].
    destruct (for_each_turns
                (zip (load_images (sorted (listdir fs)) fs)
                   (sorted (listdir fs)))
                (process interpolate vs r margin)) as (k & -> & _).
    apply turns_NoDup; [|apply process_at_most_one].
    apply (sublist_NoDup _ (sorted (listdir fs))); [apply NoDup_filenames|].
    rewrite fmap_take, snd_zip
      by (unfold load_images; by rewrite length_map).
    apply sublist_take.
  - apply apply_writes_dom. intros [f img'] Hin.
    destruct (Hw f img' Hin) as (_ & img & Hf & _). simpl. by rewrite Hf.
Qed.

End RunProperties.

Lemma main_fails_before_writing_witness :
  main (fun src _ i j => img_at src i j)
    (<["notes.txt" := None]>
       (<["a.png" := Some (Image (1000, 1000) (fun i j => (i, j, 0)))]> ∅))
    (16, 9) (1 # 5) false
  = ([], Raise AttributeError).
Proof.
  apply (proj2 (main_fails_before_writing (fun src _ i j => img_at src i j)
                  _ (16, 9) (1 # 5) false)).
  exists "notes.txt". apply lookup_insert_eq.
Defined.

Section Rerun.

Variable interpolate : image → shape → Z → Z → pixel.

(** In a run that returns, the turn of every decoded entry has returned,
    and what it wrote is in the trace of the run. *)
Lemma main_ok_turn (fs : directory) (r : ratio) (margin : Q)
    (verbose : bool) (f : string) (img : image) :
  (main interpolate fs r margin verbose).2 = Ok () →
  fs !! f = Some (Some img) →
  ∃ shapes vs,
    compute_all_valid_shapes shapes r = Ok vs
    ∧ (process interpolate vs r margin (Some img, f)).2 = Ok ()
    ∧ ∀ fw, fw ∈ (process interpolate vs r margin (Some img, f)).1 →
            fw ∈ (main interpolate fs r margin verbose).1.
Proof.
  intros Hok Hf.
  destruct (main_cases interpolate fs r margin verbose)
    as [[_ Hm]|(_ & shapes & _ & [(e & _ & Hm)|(vs & Hvs & Hm)])];
    rewrite Hm in *; [done..|].
  destruct (for_each_turns
              (zip (load_images (sorted (listdir fs)) fs) (sorted (listdir fs)))
              (process interpolate vs r margin)) as (_ & _ & Hall).
  destruct (Hall Hok) as [Htr Hturns].
  assert (Hitem : (Some img, f)
            ∈ zip (load_images (sorted (listdir fs)) fs) (sorted (listdir fs))).
  { rewrite <- (proj2 (load_image_Some fs f img) Hf).
    apply zip_load_images_elem, elem_of_filenames. by rewrite Hf. }
  exists shapes, vs. split_and!; [done|by apply Hturns|].
  intros fw Hfw. rewrite Htr. apply elem_of_concat.
  eexists. split; [exact Hfw|].
  apply elem_of_map. by exists (Some img, f).
Qed.

(** X16: a run that returns has decoded every entry, has left every image that
    passes [is_good_ratio] unwritten and has written every other image. *)
Theorem main_writes_the_others (fs : directory) (r : ratio) (margin : Q)
    (verbose : bool) :
  (main interpolate fs r margin verbose).2 = Ok () →
  (∀ f, fs !! f ≠ Some None)
  ∧ ∀ f img, fs !! f = Some (Some img) →
      (is_good_ratio (img_shape img).2 (img_shape img).1 r = Ok true
       ∧ ∀ img', (f, img') ∉ (main interpolate fs r margin verbose).1)
      ∨ (is_good_ratio (img_shape img).2 (img_shape img).1 r = Ok false
         ∧ ∃ img', (f, img') ∈ (main interpolate fs r margin verbose).1).
Proof.
  intros Hok. split.
  - intros f Hf.
    destruct (main_cases interpolate fs r margin verbose)
      as [[_ Hm]|(Hnin & _)]; [by rewrite Hm in Hok|].
    apply Hnin, load_images_None. by exists f.
  - intros f img Hf.
    destruct (main_ok_turn fs r margin verbose f img Hok Hf)
      as (shapes & vs & _ & Hturn & Hsub).
    destruct (process_cases interpolate vs r margin img f)
      as [[Hgood Hp]|[(img' & Hgood & Hp & _)|(e & _ & Hp)]];
      rewrite Hp in *; [| |done].
    + left. split; [done|]. intros img' Hin.
      by apply (main_skips_conforming interpolate fs r margin verbose
                  f img Hf Hgood _ Hin).
    + right. split; [done|]. exists img'. apply Hsub. left.
Qed.

End Rerun.

Lemma two_images_lookup (f : string) (img : image) :
  (<["a.png" := Some (Image (1080, 1920) (fun i j => (i, j, 0)))]>
     (<["b.png" := Some (Image (1080, 1900) (fun i j => (j, i, 0)))]> ∅)
   : directory) !! f = Some (Some img) →
  (f = "a.png" ∧ img = Image (1080, 1920) (fun i j => (i, j, 0)))
  ∨ (f = "b.png" ∧ img = Image (1080, 1900) (fun i j => (j, i, 0))).
Proof.
  intros Hf. destruct (decide (f = "a.png")) as [->|Ha].
  - rewrite lookup_insert_eq in Hf. injection Hf as <-. by left.
  - rewrite lookup_insert_ne in Hf by done.
    destruct (decide (f = "b.png")) as [->|Hb].
    + rewrite lookup_insert_eq in Hf. injection Hf as <-. by right.
    + rewrite lookup_insert_ne in Hf by done.
      by rewrite lookup_empty in Hf.
Defined.

Lemma main_writes_the_others_witness :
  ∃ img', ("b.png", img')
    ∈ (main (fun src _ i j => img_at src i j)
         (<["a.png" := Some (Image (1080, 1920) (fun i j => (i, j, 0)))]>
            (<["b.png" := Some (Image (1080, 1900) (fun i j => (j, i, 0)))]>
               ∅))
         (16, 9) (1 # 5) false).1.
Proof.
  destruct (main_writes_the_others (fun src _ i j => img_at src i j)
              (<["a.png" := Some (Image (1080, 1920) (fun i j => (i, j, 0)))]>
                 (<["b.png" := Some (Image (1080, 1900)
                                       (fun i j => (j, i, 0)))]> ∅))
              (16, 9) (1 # 5) false) as [_ H]; [by vm_compute|].
  destruct (H "b.png" (Image (1080, 1900) (fun i j => (j, i, 0))))
    as [[Hgood _]|[_ Hw]]; [done|discriminate Hgood|exact Hw].
Defined.

(** ** Further properties of the arithmetic *)

Lemma is_good_ratio_binary64_witness :
  is_good_ratio 1920 1080 (16, 9) = Ok (1920 =? int_of 1920).
Proof.
  apply (is_good_ratio_binary64 1920 1080 (16, 9) 1920);
    [simpl; lia|simpl; lia|apply nearest_b64_1920].
Defined.

Lemma sq_dist64_exact_witness :
  sq_dist64 (1080, 1900) (1071, 1904) = sq_dist (1080, 1900) (1071, 1904).
Proof. apply sq_dist64_exact; simpl; lia. Defined.

Lemma main_writes_in_place_witness :
  dom (apply_writes
         (main (fun src _ i j => img_at src i j)
            (<["a.png" := Some (Image (1080, 1920) (fun i j => (i, j, 0)))]>
               (<["b.png" := Some (Image (1080, 1900)
                                     (fun i j => (j, i, 0)))]> ∅))
            (16, 9) (1 # 5) false).1
         (<["a.png" := Some (Image (1080, 1920) (fun i j => (i, j, 0)))]>
            (<["b.png" := Some (Image (1080, 1900) (fun i j => (j, i, 0)))]>
               ∅)))
  = dom (<["a.png" := Some (Image (1080, 1920) (fun i j => (i, j, 0)))]>
           (<["b.png" := Some (Image (1080, 1900) (fun i j => (j, i, 0)))]>
              (∅ : directory))).
Proof.
  exact (proj2 (proj2 (main_writes_in_place
                         (fun src _ i j => img_at src i j)
                         (<["a.png" := Some (Image (1080, 1920)
                                               (fun i j => (i, j, 0)))]>
                            (<["b.png" := Some (Image (1080, 1900)
                                                  (fun i j => (j, i, 0)))]>
                               ∅))
                         (16, 9) (1 # 5) false))).
Defined.

(** ** Rounding to a nearest binary64 number *)

Lemma rne_nearest (n d k : Z) :
  0 < d → Z.abs (rne n d * d - n) ≤ Z.abs (k * d - n).
Proof.
  intros Hd. unfold rne.
  pose proof (Z.div_mod n d ltac:(lia)) as Hn.
  pose proof (Z.mod_pos_bound n d Hd) as Hr.
  set (f := n / d) in *. set (r := n mod d) in *.
  assert (Hk : (k - f) * d ≤ 0 ∨ d ≤ (k - f) * d).
  { destruct (Z.le_gt_cases k f).
    - left. apply Z.mul_nonpos_nonneg; lia.
    - right. rewrite <- (Z.mul_1_l d) at 1.
      apply Z.mul_le_mono_nonneg_r; lia. }
  cbv zeta.
  destruct (Z.compare_spec (2 * r) d); [destruct (Z.even f)|..]; lia.
Qed.

Lemma shl_pos (e : Z) : 0 < shl e.
Proof. apply Z.pow_pos_nonneg; lia. Qed.

Lemma inject_Z_pos (z : Z) : 0 < z → (0 < inject_Z z)%Q.
Proof. intros Hz. change 0%Q with (inject_Z 0). by rewrite <- Zlt_Qlt. Qed.

Lemma pow2_pos (e : Z) : (0 < pow2 e)%Q.
Proof.
  unfold pow2. apply Qlt_shift_div_l.
  - apply inject_Z_pos, shl_pos.
  - rewrite Qmult_0_l. apply inject_Z_pos, shl_pos.
Qed.

Lemma pow2_add (e1 e2 : Z) :
  e1 ≤ e2 → (pow2 e2 == inject_Z (2 ^ (e2 - e1)) * pow2 e1)%Q.
Proof.
  intros He. unfold pow2.
  assert (H : shl e2 * shl (- e1) = 2 ^ (e2 - e1) * shl e1 * shl (- e2)).
  { unfold shl. rewrite <- !Z.pow_add_r by lia. f_equal. lia. }
  pose proof (inject_Z_pos _ (shl_pos (- e1))).
  pose proof (inject_Z_pos _ (shl_pos (- e2))).
  apply (f_equal inject_Z) in H. rewrite !inject_Z_mult in H.
  field_simplify_eq; [|split; lra].
  rewrite H. ring.
Qed.

Lemma pow2_nonneg (e : Z) : 0 ≤ e → (pow2 e == inject_Z (2 ^ e))%Q.
Proof.
  intros He. unfold pow2, shl.
  rewrite (Z.max_r 0 e), (Z.max_l 0 (- e)) by lia.
  change (inject_Z (2 ^ 0)) with 1%Q. field.
Qed.

Lemma pow2_neg (e : Z) : 0 ≤ e → (pow2 (- e) == 1 / inject_Z (2 ^ e))%Q.
Proof.
  intros He. unfold pow2, shl. rewrite Z.opp_involutive.
  rewrite (Z.max_r 0 e), (Z.max_l 0 (- e)) by lia.
  reflexivity.
Qed.

Lemma is_b64_pow2 (x : Q) :
  is_b64 x ↔
  ∃ m e : Z, Z.abs m < 2 ^ 53 ∧ -1074 ≤ e ≤ 971
             ∧ (x == inject_Z m * pow2 e)%Q.
Proof.
  split.
  - intros (m & p & Hm & [[Hp Hx]|[Hp Hx]]).
    + exists m, p. split_and!; [done|lia|lia|].
      rewrite Hx, inject_Z_mult. by rewrite pow2_nonneg by lia.
    + exists m, (- p). split_and!; [done|lia|lia|].
      rewrite Hx, pow2_neg by lia.
      assert (0 < inject_Z (2 ^ p))%Q
        by (apply inject_Z_pos, Z.pow_pos_nonneg; lia).
      field. lra.
  - intros (m & e & Hm & He & Hx). exists m.
    destruct (Z.le_gt_cases 0 e).
    + exists e. split; [done|]. left. split; [lia|].
      rewrite Hx, inject_Z_mult. by rewrite pow2_nonneg by lia.
    + exists (- e). split; [done|]. right. split; [lia|].
      rewrite Hx. replace e with (- - e) at 1 by lia.
      rewrite pow2_neg by lia.
      assert (0 < inject_Z (2 ^ (- e)))%Q
        by (apply inject_Z_pos, Z.pow_pos_nonneg; lia).
      field. lra.
Qed.

Lemma is_b64_opp (x : Q) : is_b64 x → is_b64 (- x).
Proof.
  rewrite !is_b64_pow2. intros (m & e & Hm & He & Hx).
  exists (- m), e. split_and!; [lia|lia|lia|].
  rewrite Hx, inject_Z_opp. ring.
Qed.

(** The exponent is the least one allowed, or the scaled quotient has a
    significand of 53 bits. *)
Lemma b64_exponent_spec (n d : Z) :
  0 < n → 0 < d →
  let e := b64_exponent n d in
  -1074 ≤ e
  ∧ (-1074 < e →
     (inject_Z (2 ^ 52) * pow2 e <= inject_Z n / inject_Z d)%Q).
Proof.
  intros Hn Hd e. split; [unfold e, b64_exponent; lia|].
  intros He.
  pose proof (inject_Z_pos _ Hd) as Hdq.
  apply Qle_shift_div_l; [done|].
  set (e1 := Z.log2 n - Z.log2 d - 53).
  assert (Hlow : (inject_Z (2 ^ 52) * pow2 e1 * inject_Z d <= inject_Z n)%Q).
  { pose proof (Z.log2_spec n Hn) as [Hln _].
    pose proof (Z.log2_spec d Hd) as [_ Hld].
    pose proof (Z.log2_nonneg n). pose proof (Z.log2_nonneg d).
    pose proof (pow2_add e1 (e1 + 52) ltac:(lia)) as H1.
    replace (e1 + 52 - e1) with 52 in H1 by lia.
    rewrite <- H1.
    pose proof (pow2_add (e1 + 52) (Z.log2 n) ltac:(lia)) as H2.
    replace (Z.log2 n - (e1 + 52)) with (Z.succ (Z.log2 d)) in H2 by lia.
    rewrite pow2_nonneg in H2 by lia.
    pose proof (pow2_pos (e1 + 52)).
    assert (inject_Z d <= inject_Z (2 ^ Z.succ (Z.log2 d)))%Q
      by (rewrite <- Zle_Qle; lia).
    assert (inject_Z (2 ^ Z.log2 n) <= inject_Z n)%Q
      by (by rewrite <- Zle_Qle).
    nra. }
  unfold e, b64_exponent in *. fold e1 in He |- *.
  destruct (Z.leb_spec (2 ^ 53 * (d * shl e1)) (n * shl (- e1))) as [Ht|Ht].
  - rewrite Z.max_l in * by lia.
    pose proof (pow2_add e1 (e1 + 1) ltac:(lia)) as H1.
    replace (e1 + 1 - e1) with 1 in H1 by lia.
    rewrite H1.
    rewrite Zle_Qle, !inject_Z_mult in Ht.
    pose proof (inject_Z_pos _ (shl_pos (- e1))).
    assert (Hp : (pow2 e1 * inject_Z (shl (- e1)) == inject_Z (shl e1))%Q).
    { unfold pow2. field. lra. }
    change (inject_Z (2 ^ 52)) with 4503599627370496%Q.
    change (inject_Z (2 ^ 53)) with 9007199254740992%Q in Ht.
    change (inject_Z (2 ^ 1)) with 2%Q.
    nra.
  - by rewrite Z.max_l in * by lia.
Qed.

(** No multiple of the unit in the last place is nearer to the quotient
    than the rounded value. *)
Lemma b64_round_pos_multiple (n d k : Z) :
  0 < n → 0 < d →
  (Qabs (b64_round_pos n d - inject_Z n / inject_Z d)
   <= Qabs (inject_Z k * pow2 (b64_exponent n d)
            - inject_Z n / inject_Z d))%Q.
Proof.
  intros Hn Hd. unfold b64_round_pos.
  set (e := b64_exponent n d).
  set (N := n * shl (- e)). set (D := d * shl e).
  pose proof (shl_pos e) as He. pose proof (shl_pos (- e)) as He'.
  assert (HD : 0 < D) by (by apply Z.mul_pos_pos).
  pose proof (rne_nearest N D k HD) as Hmin.
  set (m := rne N D) in *.
  set (c := (pow2 e / inject_Z D)%Q).
  pose proof (inject_Z_pos _ HD) as HDq.
  pose proof (inject_Z_pos _ Hd) as Hdq.
  pose proof (inject_Z_pos _ He) as Heq.
  pose proof (inject_Z_pos _ He') as Heq'.
  assert (Hc : (0 < c)%Q).
  { unfold c. apply Qlt_shift_div_l; [done|].
    rewrite Qmult_0_l. apply pow2_pos. }
  assert (Hq : ∀ j : Z,
    (inject_Z j * pow2 e - inject_Z n / inject_Z d
     == inject_Z (j * D - N) * c)%Q).
  { intros j. unfold c, N, D, pow2, Z.sub.
    rewrite inject_Z_plus, inject_Z_opp, !inject_Z_mult.
    field. split_and!; lra. }
  rewrite (Hq m), (Hq k), !Qabs_Qmult, (Qabs_pos c) by lra.
  apply Qmult_le_compat_r; [|lra].
  change (inject_Z (Z.abs (m * D - N)) <= inject_Z (Z.abs (k * D - N)))%Q.
  by rewrite <- Zle_Qle.
Qed.

Lemma b64_round_pos_nearest (n d : Z) (x : Q) :
  0 < n → 0 < d → is_b64 x →
  (Qabs (b64_round_pos n d - inject_Z n / inject_Z d)
   <= Qabs (x - inject_Z n / inject_Z d))%Q.
Proof.
  intros Hn Hd Hx. apply is_b64_pow2 in Hx as (mx & ex & Hmx & Hex & Hx).
  destruct (Z.le_gt_cases (b64_exponent n d) ex) as [Hle|Hgt].
  - rewrite Hx, (pow2_add _ ex Hle), Qmult_assoc, <- inject_Z_mult.
    by apply b64_round_pos_multiple.
  - destruct (b64_exponent_spec n d Hn Hd) as [_ Hbig].
    specialize (Hbig ltac:(lia)).
    eapply Qle_trans; [by apply (b64_round_pos_multiple n d (2 ^ 52))|].
    set (e := b64_exponent n d) in *.
    set (q := (inject_Z n / inject_Z d)%Q) in *.
    pose proof (pow2_add ex e ltac:(lia)) as Hp.
    assert (Ht : 2 ^ 1 ≤ 2 ^ (e - ex)) by (apply Z.pow_le_mono_r; lia).
    rewrite Zle_Qle in Ht.
    assert (Hm : (inject_Z mx <= inject_Z (2 ^ 53))%Q)
      by (rewrite <- Zle_Qle; lia).
    pose proof (pow2_pos ex) as Hpos.
    change (inject_Z (2 ^ 1)) with 2%Q in Ht.
    change (inject_Z (2 ^ 53)) with (2 * inject_Z (2 ^ 52))%Q in Hm.
    assert (H52 : (0 < inject_Z (2 ^ 52))%Q) by done.
    set (c52 := inject_Z (2 ^ 52)) in *.
    set (t := inject_Z (2 ^ (e - ex))) in *.
    assert (Hxle : (x <= c52 * pow2 e)%Q).
    { rewrite Hx, Hp.
      apply Qle_trans with (2 * c52 * pow2 ex)%Q.
      - apply Qmult_le_compat_r; lra.
      - assert (0 <= (t - 2) * (c52 * pow2 ex))%Q
          by (apply Qmult_le_0_compat; [lra|apply Qmult_le_0_compat; lra]).
        lra. }
    rewrite (Qabs_neg (c52 * pow2 e - q)) by lra.
    pose proof (Qabs_ge_opp (x - q)). lra.
Qed.

(** [b64_round q] is as near to [q] as any binary64 number. *)
Lemma b64_round_nearest (q x : Q) :
  is_b64 x → (Qabs (b64_round q - q) <= Qabs (x - q))%Q.
Proof.
  intros Hx. pose proof (Qred_correct q) as Hq.
  unfold b64_round. destruct (Qred q) as [num den]. cbn [Qnum Qden].
  destruct num as [|n|n].
  - assert (Hz : (0 - q == 0)%Q) by (rewrite <- Hq; reflexivity).
    rewrite Hz. apply Qabs_nonneg.
  - rewrite Qmake_Qdiv in Hq. rewrite <- Hq.
    apply (b64_round_pos_nearest (Z.pos n) (Z.pos den)); done.
  - pose proof (b64_round_pos_nearest (Z.pos n) (Z.pos den) (- x)
                  ltac:(done) ltac:(done) (is_b64_opp _ Hx)) as H.
    assert (Hneg : (q == - (inject_Z (Z.pos n) / inject_Z (Z.pos den)))%Q).
    { rewrite <- Hq. unfold Qeq. simpl. lia. }
    rewrite <- (Qabs_opp (_ - q)), <- (Qabs_opp (x - q)).
    assert (H1 : (- (- b64_round_pos (Z.pos n) (Z.pos den) - q)
                  == b64_round_pos (Z.pos n) (Z.pos den)
                     - inject_Z (Z.pos n) / inject_Z (Z.pos den))%Q)
      by (rewrite Hneg; ring).
    assert (H2 : (- (x - q)
                  == - x - inject_Z (Z.pos n) / inject_Z (Z.pos den))%Q)
      by (rewrite Hneg; ring).
    by rewrite H1, H2.
Qed.

Lemma b64_round_comp (p q : Q) : (p == q)%Q → b64_round p = b64_round q.
Proof. intros H. unfold b64_round. by rewrite (Qred_complete _ _ H). Qed.

Lemma b64_round_exact (x : Q) : is_b64 x → (b64_round x == x)%Q.
Proof.
  intros Hx. pose proof (b64_round_nearest x x Hx) as H.
  assert (Hz : (x - x == 0)%Q) by ring.
  rewrite Hz in H. change (Qabs 0) with 0%Q in H.
  pose proof (Qabs_ge (b64_round x - x)).
  pose proof (Qabs_ge_opp (b64_round x - x)).
  lra.
Qed.

Lemma b64_round_le (q x : Q) : is_b64 x → (q <= x)%Q → (b64_round q <= x)%Q.
Proof.
  intros Hx Hq. pose proof (b64_round_nearest q x Hx) as H.
  rewrite (Qabs_pos (x - q)) in H by lra.
  pose proof (Qabs_ge (b64_round q - q)). lra.
Qed.

Lemma b64_round_ge (q x : Q) : is_b64 x → (x <= q)%Q → (x <= b64_round q)%Q.
Proof.
  intros Hx Hq. pose proof (b64_round_nearest q x Hx) as H.
  rewrite (Qabs_neg (x - q)) in H by lra.
  pose proof (Qabs_ge_opp (b64_round q - q)). lra.
Qed.


(** ** The classification in binary64 *)

Lemma is_b64_pow (k : Z) : 0 ≤ k ≤ 1023 → is_b64 (inject_Z (2 ^ k)).
Proof.
  intros Hk. exists (2 ^ (k - Z.min k 971)), (Z.min k 971). split.
  - rewrite Z.abs_eq by (apply Z.pow_nonneg; lia).
    apply Z.pow_lt_mono_r; lia.
  - left. split; [lia|]. rewrite <- Z.pow_add_r by lia.
    by replace (k - Z.min k 971 + Z.min k 971) with k by lia.
Qed.

Lemma b64_round_abs_le (q : Q) (k : Z) :
  0 ≤ k ≤ 1023 → (Qabs q <= inject_Z (2 ^ k))%Q →
  (Qabs (b64_round q) <= inject_Z (2 ^ k))%Q.
Proof.
  intros Hk [Hlo Hhi]%Qabs_Qle_condition.
  pose proof (is_b64_pow k Hk) as Hb.
  apply Qabs_Qle_condition. split.
  - by apply b64_round_ge; [apply is_b64_opp|].
  - by apply b64_round_le.
Qed.

Lemma b64_finite_le (y : Q) (k : Z) :
  0 ≤ k ≤ 1023 → (Qabs y <= inject_Z (2 ^ k))%Q → b64_finite y = true.
Proof.
  intros Hk Hy. unfold b64_finite.
  destruct (Qle_bool _ _) eqn:E; [exfalso|done].
  apply Qle_bool_iff in E.
  assert (Hlt : 2 ^ k < 2 ^ 1024) by (apply Z.pow_lt_mono_r; lia).
  rewrite Zlt_Qlt in Hlt.
  apply (Qlt_irrefl (inject_Z (2 ^ 1024))).
  eapply Qle_lt_trans; [exact E|]. by eapply Qle_lt_trans.
Qed.

Lemma Qdiv_abs_le (a b c : Z) :
  b ≠ 0 → Z.abs a ≤ c → (Qabs (inject_Z a / inject_Z b) <= inject_Z c)%Q.
Proof.
  intros Hb Ha.
  destruct b as [|p|p]; [done| |];
    unfold Qle, Qabs, Qdiv, Qmult, Qinv, inject_Z; simpl; nia.
Qed.

Lemma machine_true_div_ok (a b k : Z) :
  b ≠ 0 → 0 ≤ k ≤ 1023 → Z.abs a ≤ 2 ^ k →
  Machine.true_div a b = Ok (b64_round (inject_Z a / inject_Z b)).
Proof.
  intros Hb Hk Ha. unfold Machine.true_div.
  destruct (Z.eqb_spec b 0) as [|_]; [done|].
  rewrite (b64_finite_le _ k); [done|done|].
  apply b64_round_abs_le; [done|]. by apply Qdiv_abs_le.
Qed.

Lemma b64_round_zero (b : Z) : b64_round (inject_Z 0 / inject_Z b) = 0%Q.
Proof.
  rewrite (b64_round_comp _ 0); [done|].
  unfold Qeq, Qdiv, Qmult. simpl. lia.
Qed.

Lemma machine_true_div_zero (b : Z) : b ≠ 0 → Machine.true_div 0 b = Ok 0%Q.
Proof.
  intros Hb. unfold Machine.true_div.
  destruct (Z.eqb_spec b 0) as [|_]; [done|].
  by rewrite b64_round_zero.
Qed.

(** Below 2^53 the rounded quotient truncates to the floor of the exact
    one. *)
Lemma b64_round_int_of (a b : Z) :
  0 ≤ a < 2 ^ 53 → 0 < b →
  int_of (b64_round (inject_Z a / inject_Z b)) = a / b.
Proof.
  intros Ha Hb. apply int_of_between.
  - apply Z.div_pos; lia.
  - apply (closest_ge a b Ha Hb). intros x. apply b64_round_nearest.
  - apply (closest_lt a b Ha Hb). intros x. apply b64_round_nearest.
Qed.

Lemma machine_is_good_ratio_exact (w h : Z) (r : ratio) :
  0 ≤ h * r.1 < 2 ^ 53 → 0 < r.2 →
  Machine.is_good_ratio w h r = Ok (w =? h * r.1 / r.2).
Proof.
  intros Ha Hb. unfold Machine.is_good_ratio.
  rewrite (machine_true_div_ok _ _ 53) by lia.
  simpl_result. by rewrite b64_round_int_of.
Qed.

Lemma machine_is_resizable_ok (w h : Z) (margin : Q) (r : ratio) :
  h ≠ 0 → r.2 ≠ 0 → Z.abs w < 2 ^ 1023 → Z.abs r.1 < 2 ^ 1023 →
  ∃ b, Machine.is_resizable w h margin r = Ok b.
Proof.
  intros Hh Hr Hw Hr1. unfold Machine.is_resizable.
  rewrite (machine_true_div_ok w h 1023), (machine_true_div_ok r.1 r.2 1023)
    by lia.
  simpl_result. eauto.
Qed.

(** C3, as the code has it: for a positive height and a positive ratio
    with h * rw below 2^53, and a width below 2^1023 in absolute value,
    the classification returns exactly one of the three outcomes, and it
    is [Conforming] if and only if the width is the floor of
    [h * rw / rh] (which is also its truncation). *)
Theorem classify_total_bounded (w h rw rh : Z) (margin : Q) :
  0 < h → 0 < rw → 0 < rh → h * rw < 2 ^ 53 → Z.abs w < 2 ^ 1023 →
  (∃ o, Machine.classify w h (rw, rh) margin = Ok o
        ∧ (∀ o', Machine.classify w h (rw, rh) margin = Ok o' → o' = o)
        ∧ (o = Conforming ∨ o = Resizable ∨ o = CropRequired)
        ∧ (o = Conforming ↔ w = h * rw / rh))
  ∧ h * rw / rh = Z.quot (h * rw) rh.
Proof.
  intros Hh Hrw Hrh Hb Hw.
  split; [|symmetry; apply Z.quot_div_nonneg; lia].
  unfold Machine.classify.
  rewrite machine_is_good_ratio_exact by (simpl; lia). cbn [fst snd].
  destruct (Z.eqb_spec w (h * rw / rh)) as [Heq|Hne]; simpl_result.
  - exists Conforming. split_and!; [done|congruence|auto|done].
  - destruct (machine_is_resizable_ok w h margin (rw, rh)) as [b Hres];
      [lia|simpl; lia|done|simpl; nia|].
    rewrite Hres. destruct b.
    + exists Resizable. split_and!; [done|congruence|auto|done].
    + exists CropRequired. split_and!; [done|congruence|auto|done].
Qed.

Lemma classify_total_bounded_witness :
  (∃ o, Machine.classify 1777 1000 (16, 9) (1 # 5) = Ok o
        ∧ (∀ o', Machine.classify 1777 1000 (16, 9) (1 # 5) = Ok o' → o' = o)
        ∧ (o = Conforming ∨ o = Resizable ∨ o = CropRequired)
        ∧ (o = Conforming ↔ 1777 = 1000 * 16 / 9))
  ∧ 1000 * 16 / 9 = Z.quot (1000 * 16) 9.
Proof.
  apply (classify_total_bounded 1777 1000 16 9 (1 # 5)); lia.
Defined.

(** C3 as stated fails: Python divides in binary64.  For the ratio
    (2^54, 2^54 + 1), height 3 and width 2 the width is the floor of
    [h * rw / rh], but the quotient rounds to 3.0 and the image is not
    [Conforming]; and for height and width 2^1024 with the ratio (1, 1) the
    division raises [OverflowError], so no outcome is returned. *)
Lemma classify_rounded_quotient :
  Machine.classify 2 3 (2 ^ 54, 2 ^ 54 + 1) (1 # 5) = Ok CropRequired
  ∧ 2 = 3 * 2 ^ 54 / (2 ^ 54 + 1)
  ∧ Machine.classify (2 ^ 1024) (2 ^ 1024) (1, 1) (1 # 5)
    = Raise OverflowError.
Proof. split_and!; by vm_compute. Qed.

(** X1: the classification raises [ZeroDivisionError] exactly for a ratio
    with rh = 0 and for an image of height 0 whose width is not 0; the only
    other exception is [OverflowError], and not even that one is raised
    when the width, rw and h * rw are below 2^1023 in absolute value. *)
Theorem classify_raises (w h : Z) (r : ratio) (margin : Q) :
  (Machine.classify w h r margin = Raise ZeroDivisionError
   ↔ r.2 = 0 ∨ (h = 0 ∧ w ≠ 0))
  ∧ (∀ e, Machine.classify w h r margin = Raise e →
          e = ZeroDivisionError ∨ e = OverflowError)
  ∧ (Z.abs w < 2 ^ 1023 → Z.abs (h * r.1) < 2 ^ 1023 →
     Z.abs r.1 < 2 ^ 1023 →
     Machine.classify w h r margin ≠ Raise OverflowError).
Proof.
  split_and!.
  - unfold Machine.classify, Machine.is_good_ratio.
    destruct (Z.eq_dec r.2 0) as [Hr|Hr].
    { unfold Machine.true_div. rewrite Hr. simpl_result. split; auto. }
    destruct (Z.eq_dec h 0) as [->|Hh].
    + rewrite Z.mul_0_l, machine_true_div_zero by done. simpl_result.
      change (int_of 0) with 0.
      destruct (Z.eqb_spec w 0) as [->|Hw].
      * split; [discriminate|]. intros [?|[_ ?]]; done.
      * unfold Machine.is_resizable, Machine.true_div. simpl_result.
        split; auto.
    + destruct (Machine.true_div (h * r.1) r.2) as [y|e] eqn:E; simpl_result.
      * destruct (w =? int_of y).
        { split; [discriminate|]. intros [?|[? _]]; done. }
        unfold Machine.is_resizable, Machine.true_div.
        destruct (Z.eqb_spec h 0) as [|_]; [done|].
        destruct (Z.eqb_spec r.2 0) as [|_]; [done|].
        split; [|intros [?|[? _]]; done].
        repeat (first [destruct (b64_finite _) | destruct (_ && _)];
                simpl_result; try discriminate).
      * unfold Machine.true_div in E.
        destruct (Z.eqb_spec r.2 0) as [|_]; [done|].
        destruct (b64_finite _); [done|]. injection E as <-.
        split; [discriminate|]. intros [?|[? _]]; done.
  - intros e. unfold Machine.classify, Machine.is_good_ratio,
      Machine.is_resizable, Machine.true_div.
    repeat (first [destruct (_ =? 0) | destruct (b64_finite _)
                  | destruct (_ =? int_of _) | destruct (_ && _)];
            simpl_result; try discriminate; try (intros [= <-]; auto)).
  - intros Hw Ha Hr1.
    unfold Machine.classify, Machine.is_good_ratio, Machine.is_resizable.
    destruct (Z.eq_dec r.2 0) as [Hr|Hr].
    { unfold Machine.true_div. rewrite Hr. simpl_result. discriminate. }
    rewrite (machine_true_div_ok (h * r.1) r.2 1023) by lia. simpl_result.
    destruct (w =? int_of _); [discriminate|].
    destruct (Z.eq_dec h 0) as [Hh|Hh].
    { unfold Machine.true_div. rewrite Hh. simpl_result. discriminate. }
    rewrite (machine_true_div_ok w h 1023),
      (machine_true_div_ok r.1 r.2 1023) by lia.
    simpl_result. by destruct (_ && _).
Qed.

Lemma classify_raises_witness :
  Machine.classify 5 0 (16, 9) (1 # 5) = Raise ZeroDivisionError.
Proof. apply classify_raises. right. split; lia. Defined.

(** ** The nearest shape in int64 *)

Lemma sq_dist64_small (p s : shape) :
  small_shape p → small_shape s → sq_dist64 p s = sq_dist p s.
Proof.
  intros [Hp1 Hp2] [Hs1 Hs2]. unfold sq_dist64, sq_dist.
  rewrite !(wrap64_small (_ - _)) by lia.
  assert (H1 : 0 ≤ (s.1 - p.1) * (s.1 - p.1) < 2 ^ 62)
    by (apply square_bound; lia).
  assert (H2 : 0 ≤ (s.2 - p.2) * (s.2 - p.2) < 2 ^ 62)
    by (apply square_bound; lia).
  rewrite (wrap64_small ((s.1 - p.1) * _)) by lia.
  rewrite (wrap64_small ((s.2 - p.2) * _)) by lia.
  rewrite wrap64_small by lia. lia.
Qed.

Lemma map_sq_dist64_small (p : shape) (vs : list shape) :
  small_shape p → (∀ t, t ∈ vs → small_shape t) →
  map (sq_dist64 p) vs = map (sq_dist p) vs.
Proof.
  intros Hp Hvs. apply map_ext_in. intros t Ht.
  apply sq_dist64_small; [done|]. by apply Hvs, list_elem_of_In.
Qed.


Lemma machine_get_closest_shape_scan (w h : Z) (vs : list shape)
    (r : ratio) :
  Machine.is_good_ratio w h r = Ok false → vs ≠ [] →
  ∃ (k : nat) (s : shape),
    Machine.get_closest_shape w h vs r = Ok s ∧ vs !! k = Some s
    ∧ first_min (map (sq_dist64 (h, w)) vs) k.
Proof.
  intros Hgood Hvs. unfold Machine.get_closest_shape.
  rewrite Hgood. simpl_result.
  destruct (argmin_first_min (map (sq_dist64 (h, w)) vs)) as (k & -> & Hk).
  { by destruct vs. }
  destruct Hk as (m & Hm & Hmin & Hfirst).
  rewrite lookup_map in Hm.
  destruct (vs !! k) as [s|] eqn:Hs; [|done].
  exists k, s. split_and!; [by apply getitem_lookup|done|].
  exists m. by rewrite lookup_map, Hs.
Qed.




(** C5, as the code has it: an input that fails [is_good_ratio] gets a
    shape of the sequence; an input that passes it gets its own
    (height, width) back, in the sequence or not; and an input whose
    (height, width) is in the sequence gets that shape, when all
    dimensions are in [0, 2^31), rh <> 0 and h * rw is below 2^1023 in
    absolute value. *)
Theorem get_closest_shape_member_bounded (w h : Z) (vs : list shape)
    (r : ratio) :
  (Machine.is_good_ratio w h r = Ok false → vs ≠ [] →
     ∃ s, Machine.get_closest_shape w h vs r = Ok s ∧ s ∈ vs)
  ∧ (Machine.is_good_ratio w h r = Ok true →
       Machine.get_closest_shape w h vs r = Ok (h, w))
  ∧ (r.2 ≠ 0 → Z.abs (h * r.1) < 2 ^ 1023 →
     0 ≤ h < 2 ^ 31 → 0 ≤ w < 2 ^ 31 →
     (∀ t : shape, t ∈ vs → 0 ≤ t.1 < 2 ^ 31 ∧ 0 ≤ t.2 < 2 ^ 31) →
     (h, w) ∈ vs → Machine.get_closest_shape w h vs r = Ok (h, w)).
Proof.
  split_and!.
  - intros Hgood Hvs.
    destruct (machine_get_closest_shape_scan w h vs r Hgood Hvs)
      as (k & s & Hres & Hs & _).
    exists s. split; [done|]. by eapply list_elem_of_lookup_2.
  - intros Hgood. unfold Machine.get_closest_shape. by rewrite Hgood.
  - intros Hr Ha Hh Hw Hsmall Hin.
    destruct (Machine.is_good_ratio w h r) as [[|]|e] eqn:Hgood.
    + unfold Machine.get_closest_shape. by rewrite Hgood.
    + destruct (machine_get_closest_shape_scan w h vs r Hgood)
        as (k & s & Hres & Hs & m & Hm & Hmin & _).
      { intros ->. by apply not_elem_of_nil in Hin. }
      rewrite (map_sq_dist64_small (h, w) vs) in Hm, Hmin by done.
      rewrite Hres. f_equal.
      rewrite lookup_map, Hs in Hm. injection Hm as <-.
      apply sq_dist_zero.
      pose proof (sq_dist_nonneg (h, w) s).
      assert (sq_dist (h, w) s ≤ sq_dist (h, w) (h, w)).
      { apply Hmin. apply elem_of_map. by exists (h, w). }
      assert (sq_dist (h, w) (h, w) = 0) by by apply sq_dist_zero.
      lia.
    + unfold Machine.is_good_ratio in Hgood.
      by rewrite (machine_true_div_ok _ _ 1023) in Hgood by lia.
Qed.

Lemma get_closest_shape_member_bounded_witness :
  (∃ s, Machine.get_closest_shape 1900 1080 [(1071, 1904); (1080, 1920)]
          (16, 9) = Ok s ∧ s ∈ [(1071, 1904); (1080, 1920)])
  ∧ Machine.get_closest_shape 17 10 [(1071, 1904); (1080, 1920)] (16, 9)
    = Ok (10, 17)
  ∧ Machine.get_closest_shape 1920 1080 [(1071, 1904); (1080, 1920)] (16, 9)
    = Ok (1080, 1920).
Proof.
  split_and!.
  - destruct (get_closest_shape_member_bounded 1900 1080
                [(1071, 1904); (1080, 1920)] (16, 9)) as (H & _ & _).
    apply H; [by vm_compute | discriminate].
  - destruct (get_closest_shape_member_bounded 17 10
                [(1071, 1904); (1080, 1920)] (16, 9)) as (_ & H & _).
    apply H. by vm_compute.
  - destruct (get_closest_shape_member_bounded 1920 1080
                [(1071, 1904); (1080, 1920)] (16, 9)) as (_ & _ & H).
    apply H; [simpl; lia|simpl; lia|lia|lia| |].
    + intros t Ht. apply list_elem_of_In in Ht. simpl in Ht.
      destruct Ht as [<-|[<-|[]]]; simpl; lia.
    + apply list_elem_of_In. simpl. auto.
Defined.

(** C5 as stated fails, in both parts: a conforming input that is no
    multiple of the ratio is returned as it is, although the sequence does
    not hold it; and the input (9, 17), an element of the sequence, gets
    the other element when the squared distance to that one wraps. *)
Lemma get_closest_shape_outside :
  Machine.get_closest_shape 17 10 [(9, 16); (18, 32)] (16, 9) = Ok (10, 17)
  ∧ ((10, 17) ∉ [(9, 16); (18, 32)])
  ∧ Machine.get_closest_shape 17 9 [(3037000509, 17); (9, 17)] (16, 9)
    = Ok (3037000509, 17)
  ∧ (9, 17) ∈ [(3037000509, 17); (9, 17)].
Proof.
  split_and!; [by vm_compute| |by vm_compute|].
  - intros H. apply list_elem_of_In in H. simpl in H.
    destruct H as [[=]|[[=]|[]]].
  - apply list_elem_of_In. simpl. auto.
Qed.

(** X4: [get_closest_shape] raises [ZeroDivisionError] for a ratio with
    rh = 0; for any other ratio it raises [ValueError] exactly on an empty
    sequence of valid shapes with an input failing [is_good_ratio], and
    [OverflowError] exactly when [is_good_ratio] does, which needs h * rw
    of at least 2^1023 in absolute value; it raises nothing else. *)
Theorem get_closest_shape_raises (w h : Z) (vs : list shape) (r : ratio) :
  (r.2 = 0 → Machine.get_closest_shape w h vs r = Raise ZeroDivisionError)
  ∧ (r.2 ≠ 0 →
     (Machine.get_closest_shape w h vs r = Raise ValueError
      ↔ vs = [] ∧ Machine.is_good_ratio w h r = Ok false)
     ∧ (∀ e, Machine.get_closest_shape w h vs r = Raise e →
             e = ValueError ∨ e = OverflowError)
     ∧ (Machine.get_closest_shape w h vs r = Raise OverflowError
        ↔ Machine.is_good_ratio w h r = Raise OverflowError)
     ∧ (Z.abs (h * r.1) < 2 ^ 1023 →
        Machine.get_closest_shape w h vs r ≠ Raise OverflowError)).
Proof.
  split.
  - intros Hr. unfold Machine.get_closest_shape, Machine.is_good_ratio,
      Machine.true_div. by rewrite Hr.
  - intros Hr.
    assert (Hgood : (∃ b, Machine.is_good_ratio w h r = Ok b)
                    ∨ Machine.is_good_ratio w h r = Raise OverflowError).
    { unfold Machine.is_good_ratio, Machine.true_div.
      destruct (Z.eqb_spec r.2 0) as [|_]; [done|].
      destruct (b64_finite _); simpl_result; eauto. }
    assert (Hcases :
      (Machine.is_good_ratio w h r = Ok true
       ∧ Machine.get_closest_shape w h vs r = Ok (h, w))
      ∨ (Machine.is_good_ratio w h r = Ok false ∧ vs = []
         ∧ Machine.get_closest_shape w h vs r = Raise ValueError)
      ∨ (Machine.is_good_ratio w h r = Ok false ∧ vs ≠ []
         ∧ ∃ s, Machine.get_closest_shape w h vs r = Ok s)
      ∨ (Machine.is_good_ratio w h r = Raise OverflowError
         ∧ Machine.get_closest_shape w h vs r = Raise OverflowError)).
    { destruct Hgood as [[[|] E]|E].
      - left. split; [done|]. unfold Machine.get_closest_shape.
        by rewrite E.
      - destruct vs as [|v vs].
        + right. left. split_and!; [done|done|].
          unfold Machine.get_closest_shape. by rewrite E.
        + right. right. left. split_and!; [done|done|].
          destruct (machine_get_closest_shape_scan w h (v :: vs) r E)
            as (k & s & Hs & _); [done|eauto].
      - right. right. right. split; [done|].
        unfold Machine.get_closest_shape. by rewrite E. }
    destruct Hcases as [[E H]|[(E & Hvs & H)|[(E & Hvs & s & H)|[E H]]]];
      rewrite H, E; split_and!.
    + split; [discriminate|]. by intros [_ [=]].
    + intros e. discriminate.
    + split; discriminate.
    + discriminate.
    + done.
    + intros e [= <-]. auto.
    + split; discriminate.
    + discriminate.
    + split; [discriminate|]. by intros [? _].
    + intros e. discriminate.
    + split; discriminate.
    + discriminate.
    + split; [discriminate|]. by intros [_ [=]].
    + intros e [= <-]. auto.
    + done.
    + intros Ha _. unfold Machine.is_good_ratio in E.
      by rewrite (machine_true_div_ok _ _ 1023) in E by lia.
Qed.

Lemma get_closest_shape_raises_witness :
  Machine.get_closest_shape 1900 1080 [(9, 16)] (16, 0)
  = Raise ZeroDivisionError
  ∧ (Machine.get_closest_shape 1900 1080 [] (16, 9) = Raise ValueError
     ↔ [] = ([] : list shape)
       ∧ Machine.is_good_ratio 1900 1080 (16, 9) = Ok false).
Proof.
  split.
  - by apply (get_closest_shape_raises 1900 1080 [(9, 16)] (16, 0)).
  - apply (get_closest_shape_raises 1900 1080 [] (16, 9)). simpl. lia.
Defined.

(** ** The valid shapes in float64 and int64 *)

Lemma b64_round_int (x : Z) :
  Z.abs x < 2 ^ 53 → (b64_round (inject_Z x) == inject_Z x)%Q.
Proof. intros Hx. by apply b64_round_exact, is_b64_int. Qed.

Lemma np_divide_small (a b : Z) :
  0 ≤ a < 2 ^ 53 → 0 < b < 2 ^ 53 →
  ∃ y, Machine.np_divide a b = Fin y ∧ int_of y = Z.quot a b.
Proof.
  intros Ha Hb. unfold Machine.np_divide.
  destruct (Z.eqb_spec b 0) as [|_]; [lia|].
  eexists. split; [done|].
  rewrite (b64_round_comp _ (inject_Z a / inject_Z b)).
  - rewrite b64_round_int_of by lia. by rewrite Z.quot_div_nonneg by lia.
  - by rewrite !b64_round_int by lia.
Qed.

Lemma machine_quotients (shapes : list shape) (r : ratio) :
  0 < r.1 < 2 ^ 53 → 0 < r.2 < 2 ^ 53 →
  (∀ s : shape, s ∈ shapes → 0 ≤ s.1 < 2 ^ 53 ∧ 0 ≤ s.2 < 2 ^ 53) →
  ∃ ys, concat (map (fun s : shape =>
                  [Machine.np_divide s.1 r.1; Machine.np_divide s.2 r.2])
                shapes) = map Fin ys
        ∧ map int_of ys = quotients_of shapes r.
Proof.
  intros H1 H2 Hdim. induction shapes as [|s shapes IH].
  - by exists [].
  - destruct IH as (ys & Hys & Hq).
    { intros s' Hs'. apply Hdim. by right. }
    destruct (Hdim s) as [Hs1 Hs2]; [left|].
    destruct (np_divide_small s.1 r.1 Hs1 H1) as (y1 & E1 & Hy1).
    destruct (np_divide_small s.2 r.2 Hs2 H2) as (y2 & E2 & Hy2).
    exists (y1 :: y2 :: ys). split.
    + simpl. by rewrite E1, E2, Hys.
    + unfold quotients_of in *. simpl. by rewrite Hy1, Hy2, Hq.
Qed.

Lemma foldl_f64_max_Fin (y : Q) (ys : list Q) :
  foldl Machine.f64_max (Fin y) (map Fin ys) = Fin (foldl Qmax y ys).
Proof.
  revert y. induction ys as [|z ys IH]; intros y; [done|].
  simpl. by rewrite IH.
Qed.

Lemma elem_of_arange (a b k : Z) : k ∈ arange a b → a ≤ k < b.
Proof.
  unfold arange. intros (i & -> & Hi)%elem_of_map.
  apply elem_of_seq in Hi. lia.
Qed.

Lemma quotients_of_bounds (shapes : list shape) (r : ratio) (x B : Z) :
  0 < r.1 → 0 < r.2 →
  (∀ s : shape, s ∈ shapes → 0 ≤ s.1 < B ∧ 0 ≤ s.2 < B) →
  x ∈ quotients_of shapes r → 0 ≤ x < B.
Proof.
  intros H1 H2 Hdim (s & Hs & Hx)%elem_of_quotients_of.
  destruct (Hdim s Hs) as [Hs1 Hs2].
  assert (∀ a b, 0 ≤ a < B → 0 < b → 0 ≤ Z.quot a b < B).
  { intros a b Ha Hb. rewrite Z.quot_div_nonneg by lia. split.
    - apply Z.div_pos; lia.
    - apply Z.le_lt_trans with a; [|lia].
      apply Z.div_le_upper_bound; nia. }
  destruct Hx as [-> | ->]; auto.
Qed.

Lemma mul_bound (a b : Z) :
  0 ≤ a < 2 ^ 31 → 0 ≤ b < 2 ^ 31 → 0 ≤ a * b < 2 ^ 62.
Proof.
  change (2 ^ 62) with (2 ^ 31 * 2 ^ 31).
  generalize (2 ^ 31). intros c Ha Hb. nia.
Qed.

(** What the code returns within 31 bits: the multiples of the exact
    model. *)
Lemma machine_compute_multiples (shapes : list shape) (r : ratio) :
  shapes ≠ [] → 0 < r.1 < 2 ^ 31 → 0 < r.2 < 2 ^ 31 →
  (∀ s : shape, s ∈ shapes → 0 ≤ s.1 < 2 ^ 31 ∧ 0 ≤ s.2 < 2 ^ 31) →
  ∃ m, is_max m (quotients_of shapes r)
       ∧ Machine.compute_all_valid_shapes shapes r = Ok (multiples m r).
Proof.
  intros Hne H1 H2 Hdim.
  destruct (machine_quotients shapes r) as (ys & Hys & Hq); [lia|lia| |].
  { intros s Hs. destruct (Hdim s Hs). lia. }
  unfold Machine.compute_all_valid_shapes. rewrite Hys.
  destruct ys as [|y ys].
  { destruct shapes; [done|discriminate]. }
  simpl map. unfold Machine.np_max. simpl_result.
  rewrite foldl_f64_max_Fin. unfold Machine.astype_int.
  rewrite int_of_foldl_Qmax.
  simpl in Hq.
  destruct (foldl_Zmax_spec (map int_of ys) (int_of y)) as [Hin Hub].
  set (m := foldl Z.max (int_of y) (map int_of ys)) in *.
  rewrite Hq in Hin, Hub.
  assert (Hm : 0 ≤ m < 2 ^ 31)
    by (apply (quotients_of_bounds shapes r m (2 ^ 31)); [lia|lia|done|done]).
  destruct (Z.leb_spec (- 2 ^ 63) m); [|lia].
  destruct (Z.ltb_spec m (2 ^ 63)); [|lia].
  cbn [andb]. rewrite wrap64_small by lia.
  exists m. split; [done|]. unfold multiples. rewrite map_map.
  f_equal. apply map_ext_in. intros k Hk%list_elem_of_In%elem_of_arange.
  cbn [fst snd].
  pose proof (mul_bound k r.1 ltac:(lia) ltac:(lia)).
  pose proof (mul_bound k r.2 ltac:(lia) ltac:(lia)).
  by rewrite !wrap64_small by lia.
Qed.

Lemma is_max_unique (m m' : Z) (l : list Z) :
  is_max m l → is_max m' l → m = m'.
Proof.
  intros [Hin Hub] [Hin' Hub']. apply Z.le_antisymm; auto.
Qed.

(** X20: within 31 bits the enumeration in machine arithmetic is the exact
    one: for a ratio with components in (0, 2^31) and shapes with entries
    in [0, 2^31), the float64 quotients truncate to the exact floors and no
    product wraps, so [Machine.compute_all_valid_shapes] returns what
    [compute_all_valid_shapes] returns. *)
Theorem compute_all_valid_shapes_machine (shapes : list shape) (r : ratio) :
  0 < r.1 < 2 ^ 31 → 0 < r.2 < 2 ^ 31 →
  (∀ s : shape, s ∈ shapes → 0 ≤ s.1 < 2 ^ 31 ∧ 0 ≤ s.2 < 2 ^ 31) →
  Machine.compute_all_valid_shapes shapes r
  = compute_all_valid_shapes shapes r.
Proof.
  intros H1 H2 Hdim. destruct (decide (shapes = [])) as [->|Hne]; [done|].
  destruct (machine_compute_multiples shapes r) as (m & Hm & ->); [done..|].
  destruct (compute_all_valid_shapes_multiples shapes r)
    as (m' & Hm' & ->); [done|lia|lia|].
  by rewrite (is_max_unique m m' _ Hm Hm').
Qed.

Lemma compute_all_valid_shapes_machine_witness :
  Machine.compute_all_valid_shapes [(1080, 1920)] (16, 9)
  = compute_all_valid_shapes [(1080, 1920)] (16, 9).
Proof.
  apply compute_all_valid_shapes_machine; [simpl; lia|simpl; lia|].
  intros s Hs. apply list_elem_of_In in Hs. simpl in Hs.
  destruct Hs as [<-|[]]. simpl. lia.
Defined.

(** C7, as the code has it: for a ratio with components in (0, 2^31) and
    shapes with entries in [0, 2^31), every shape that
    [compute_all_valid_shapes] returns is (k * rh, k * rw) for an integer
    k >= 1, the shape at index i being the one for k = i + 1, and each
    shape is smaller in both dimensions than the next one.  A non-empty
    collection does return. *)
Theorem compute_all_valid_shapes_increasing_bounded (shapes : list shape)
    (rw rh : Z) :
  0 < rw < 2 ^ 31 → 0 < rh < 2 ^ 31 →
  (∀ s : shape, s ∈ shapes → 0 ≤ s.1 < 2 ^ 31 ∧ 0 ≤ s.2 < 2 ^ 31) →
  (shapes ≠ [] →
   ∃ vs, Machine.compute_all_valid_shapes shapes (rw, rh) = Ok vs)
  ∧ ∀ vs, Machine.compute_all_valid_shapes shapes (rw, rh) = Ok vs →
      (∀ s : shape, s ∈ vs → ∃ k, 1 ≤ k ∧ s = (k * rh, k * rw))
      ∧ (∀ (i : nat) (s : shape), vs !! i = Some s →
           s = ((1 + Z.of_nat i) * rh, (1 + Z.of_nat i) * rw))
      ∧ (∀ (i : nat) (s t : shape), vs !! i = Some s → vs !! S i = Some t →
           s.1 < t.1 ∧ s.2 < t.2).
Proof.
  intros Hrw Hrh Hdim.
  assert (Hform : ∀ vs,
            Machine.compute_all_valid_shapes shapes (rw, rh) = Ok vs →
            ∃ m, vs = multiples m (rw, rh)).
  { intros vs Hvs. destruct shapes as [|s0 shapes]; [done|].
    destruct (machine_compute_multiples (s0 :: shapes) (rw, rh))
      as (m & _ & Hm); [done..|].
    exists m. congruence. }
  split.
  - intros Hs.
    destruct (machine_compute_multiples shapes (rw, rh))
      as (m & _ & Hm); [done..|eauto].
  - intros vs Hvs. destruct (Hform vs Hvs) as [m ->]. split_and!.
    + intros s [i Hi]%list_elem_of_lookup_1.
      apply multiples_lookup in Hi as [-> _]. simpl.
      exists (1 + Z.of_nat i). split; [lia|done].
    + intros i s Hi. by apply multiples_lookup in Hi as [-> _].
    + intros i s t Hs Ht.
      apply multiples_lookup in Hs as [-> _].
      apply multiples_lookup in Ht as [-> _]. simpl. nia.
Qed.

Lemma compute_all_valid_shapes_increasing_bounded_witness :
  ∃ vs, Machine.compute_all_valid_shapes [(20, 40)] (16, 9) = Ok vs
        ∧ (∀ s : shape, s ∈ vs → ∃ k, 1 ≤ k ∧ s = (k * 9, k * 16))
        ∧ (∀ (i : nat) (s t : shape), vs !! i = Some s → vs !! S i = Some t →
           s.1 < t.1 ∧ s.2 < t.2).
Proof.
  destruct (compute_all_valid_shapes_increasing_bounded [(20, 40)] 16 9)
    as [Hret Hprop]; [lia|lia| |].
  { intros s Hs. apply list_elem_of_In in Hs. simpl in Hs.
    destruct Hs as [<-|[]]. simpl. lia. }
  destruct Hret as [vs Hvs]; [discriminate|].
  exists vs. destruct (Hprop vs Hvs) as (H1 & _ & H3).
  split; [exact Hvs|]. split; [exact H1|exact H3].
Defined.

(** C7 as stated fails: the products of [np.dot] are int64.  For the one
    shape (0, 3) and the positive ratio (2^62, 1) the second shape
    returned is (2, -2^63): no multiple of (1, 2^62), and its width is
    below that of the first shape. *)
Lemma compute_all_valid_shapes_wraps :
  Machine.compute_all_valid_shapes [(0, 3)] (2 ^ 62, 1)
  = Ok [(1, 2 ^ 62); (2, - 2 ^ 63); (3, - 2 ^ 62)]
  ∧ (∀ k, (2, - 2 ^ 63) ≠ (k * 1, k * 2 ^ 62))
  ∧ ¬ (2 ^ 62 < - 2 ^ 63).
Proof.
  split_and!; [by vm_compute| |lia].
  intros k [= Hk1 Hk2]. lia.
Qed.

(** X7: what [compute_all_valid_shapes] returns for a ratio with components
    in (0, 2^31) and a non-empty collection of shapes with entries in
    [0, 2^31): the multiples (k * rh, k * rw) for k = 1..m, where m is the
    greatest of the floors of a height by rw and of a width by rh.  The
    result is empty exactly when every height is below rw and every width
    below rh. *)
Theorem compute_all_valid_shapes_spec (shapes : list shape) (rw rh : Z) :
  shapes ≠ [] → 0 < rw < 2 ^ 31 → 0 < rh < 2 ^ 31 →
  (∀ s : shape, s ∈ shapes → 0 ≤ s.1 < 2 ^ 31 ∧ 0 ≤ s.2 < 2 ^ 31) →
  ∃ m, Machine.compute_all_valid_shapes shapes (rw, rh)
       = Ok (multiples m (rw, rh))
       ∧ 0 ≤ m
       ∧ length (multiples m (rw, rh)) = Z.to_nat m
       ∧ (∃ s : shape, s ∈ shapes ∧ (m = s.1 / rw ∨ m = s.2 / rh))
       ∧ (∀ s : shape, s ∈ shapes → s.1 / rw ≤ m ∧ s.2 / rh ≤ m)
       ∧ (multiples m (rw, rh) = []
          ↔ ∀ s : shape, s ∈ shapes → s.1 < rw ∧ s.2 < rh).
Proof.
  intros Hne Hrw Hrh Hpos.
  destruct (machine_compute_multiples shapes (rw, rh))
    as (m & [Hin Hub] & Heq); [done..|].
  assert (Hq : ∀ s : shape, s ∈ shapes →
            Z.quot s.1 rw = s.1 / rw ∧ Z.quot s.2 rh = s.2 / rh).
  { intros s Hs. destruct (Hpos s Hs).
    split; apply Z.quot_div_nonneg; lia. }
  assert (Hex : ∃ s : shape, s ∈ shapes ∧ (m = s.1 / rw ∨ m = s.2 / rh)).
  { apply elem_of_quotients_of in Hin as (s & Hs & Hm). simpl in Hm.
    destruct (Hq s Hs) as [H1 H2]. exists s. split; [done|].
    destruct Hm; [left|right]; congruence. }
  assert (Hle : ∀ s : shape, s ∈ shapes → s.1 / rw ≤ m ∧ s.2 / rh ≤ m).
  { intros s Hs. destruct (Hq s Hs) as [<- <-].
    split; apply Hub, elem_of_quotients_of; exists s; auto. }
  assert (Hm0 : 0 ≤ m).
  { destruct Hex as (s & Hs & [->| ->]); destruct (Hpos s Hs);
      apply Z.div_pos; lia. }
  exists m. split_and!; [done|done|apply multiples_length|done|done|].
  split.
  - intros Hnil s Hs.
    assert (Hlen : Z.to_nat m = 0%nat)
      by (by rewrite <- (multiples_length m (rw, rh)), Hnil).
    destruct (Hle s Hs) as [H1 H2]. destruct (Hpos s Hs).
    assert (H3 : s.1 / rw = 0) by (pose proof (Z.div_pos s.1 rw); lia).
    assert (H4 : s.2 / rh = 0) by (pose proof (Z.div_pos s.2 rh); lia).
    apply Z.div_small_iff in H3; [|lia]. apply Z.div_small_iff in H4; [|lia].
    lia.
  - intros Hsmall. apply length_zero_iff_nil. rewrite multiples_length.
    destruct Hex as (s & Hs & Hm). destruct (Hsmall s Hs), (Hpos s Hs).
    destruct Hm as [-> | ->]; rewrite Z.div_small by lia; done.
Qed.

Lemma compute_all_valid_shapes_spec_witness :
  ∃ m, Machine.compute_all_valid_shapes [(1080, 1920); (1000, 1000)] (16, 9)
       = Ok (multiples m (16, 9))
       ∧ length (multiples m (16, 9)) = Z.to_nat m.
Proof.
  destruct (compute_all_valid_shapes_spec [(1080, 1920); (1000, 1000)] 16 9)
    as (m & H1 & _ & H2 & _); [discriminate|lia|lia| |].
  - intros s Hs. apply list_elem_of_In in Hs. simpl in Hs.
    destruct Hs as [<-|[<-|[]]]; simpl; lia.
  - exists m. split; [exact H1|exact H2].
Defined.

Lemma machine_multiple_good_ratio (k : Z) (r : ratio) :
  0 < r.2 → 0 ≤ k * r.2 * r.1 < 2 ^ 53 →
  Machine.is_good_ratio (k * r.1) (k * r.2) r = Ok true.
Proof.
  intros Hr Hk. rewrite machine_is_good_ratio_exact by done.
  replace (k * r.2 * r.1) with (k * r.1 * r.2) by lia.
  rewrite Z.div_mul by lia. by rewrite Z.eqb_refl.
Qed.

Lemma machine_valid_shapes_good (shapes : list shape) (r : ratio)
    (vs : list shape) (v : shape) :
  0 < r.1 < 2 ^ 22 → 0 < r.2 < 2 ^ 22 →
  (∀ s : shape, s ∈ shapes → 0 ≤ s.1 < 2 ^ 31 ∧ 0 ≤ s.2 < 2 ^ 31) →
  Machine.compute_all_valid_shapes shapes r = Ok vs → v ∈ vs →
  Machine.is_good_ratio v.2 v.1 r = Ok true.
Proof.
  intros H1 H2 Hdim Hvs Hin.
  assert (Hne : shapes ≠ []) by (by intros ->).
  destruct (machine_compute_multiples shapes r)
    as (m & [Hm Hub] & Heq); [done|lia|lia|done|].
  rewrite Heq in Hvs. injection Hvs as <-.
  apply list_elem_of_lookup_1 in Hin as [i Hi].
  apply multiples_lookup in Hi as [-> Hk]. cbn [fst snd].
  apply machine_multiple_good_ratio; [lia|].
  set (k := 1 + Z.of_nat i) in *.
  assert (Hk0 : 0 ≤ k) by (unfold k; lia).
  apply elem_of_quotients_of in Hm as (s & Hs & Hm).
  destruct (Hdim s Hs) as [Hs1 Hs2].
  rewrite !Z.quot_div_nonneg in Hm by lia.
  assert (Hprod : 0 ≤ k * r.1 < 2 ^ 31 ∨ 0 ≤ k * r.2 < 2 ^ 31).
  { destruct Hm as [Hm|Hm]; [left|right].
    - pose proof (Z.mul_div_le s.1 r.1 ltac:(lia)). nia.
    - pose proof (Z.mul_div_le s.2 r.2 ltac:(lia)). nia. }
  change (2 ^ 53) with (2 ^ 31 * 2 ^ 22).
  generalize dependent (2 ^ 31). generalize dependent (2 ^ 22).
  intros. nia.
Qed.

(** X6: for a ratio with components in (0, 2^22) and shapes with entries in
    [0, 2^31), every shape that [compute_all_valid_shapes] returns passes
    [is_good_ratio] itself, and so is classified [Conforming] for every
    margin. *)
Theorem valid_shapes_conforming (shapes : list shape) (r : ratio)
    (vs : list shape) (s : shape) (margin : Q) :
  0 < r.1 < 2 ^ 22 → 0 < r.2 < 2 ^ 22 →
  (∀ s : shape, s ∈ shapes → 0 ≤ s.1 < 2 ^ 31 ∧ 0 ≤ s.2 < 2 ^ 31) →
  Machine.compute_all_valid_shapes shapes r = Ok vs → s ∈ vs →
  Machine.is_good_ratio s.2 s.1 r = Ok true
  ∧ Machine.classify s.2 s.1 r margin = Ok Conforming.
Proof.
  intros H1 H2 Hdim Hvs Hin.
  assert (Hgood := machine_valid_shapes_good shapes r vs s H1 H2 Hdim Hvs Hin).
  split; [done|]. unfold Machine.classify. by rewrite Hgood.
Qed.

Lemma valid_shapes_conforming_witness :
  Machine.is_good_ratio 32 18 (16, 9) = Ok true
  ∧ Machine.classify 32 18 (16, 9) (1 # 5) = Ok Conforming.
Proof.
  apply (valid_shapes_conforming [(20, 40)] (16, 9)
           [(9, 16); (18, 32); (27, 48); (36, 64)] (18, 32) (1 # 5)).
  - simpl. lia.
  - simpl. lia.
  - intros s Hs. apply list_elem_of_In in Hs. simpl in Hs.
    destruct Hs as [<-|[]]. simpl. lia.
  - by vm_compute.
  - apply list_elem_of_In. simpl. auto.
Defined.

(** X5: for a ratio with components in (0, 2^22) and shapes with entries in
    [0, 2^31), with the valid shapes of [compute_all_valid_shapes],
    whatever [get_closest_shape] returns passes [is_good_ratio]: the input
    itself when it is conforming, a valid shape otherwise. *)
Theorem get_closest_shape_conforming (shapes : list shape) (r : ratio)
    (vs : list shape) (w h : Z) (s : shape) :
  0 < r.1 < 2 ^ 22 → 0 < r.2 < 2 ^ 22 →
  (∀ s : shape, s ∈ shapes → 0 ≤ s.1 < 2 ^ 31 ∧ 0 ≤ s.2 < 2 ^ 31) →
  Machine.compute_all_valid_shapes shapes r = Ok vs →
  Machine.get_closest_shape w h vs r = Ok s →
  Machine.is_good_ratio s.2 s.1 r = Ok true.
Proof.
  intros H1 H2 Hdim Hvs Hs.
  destruct (Machine.is_good_ratio w h r) as [[|]|e] eqn:E.
  - unfold Machine.get_closest_shape in Hs. rewrite E in Hs.
    by injection Hs as <-.
  - destruct vs as [|v vs'] eqn:Heq.
    { unfold Machine.get_closest_shape in Hs. by rewrite E in Hs. }
    destruct (machine_get_closest_shape_scan w h (v :: vs') r E)
      as (k & s' & Hs' & Hk & _); [done|].
    rewrite Hs' in Hs. injection Hs as ->.
    apply (machine_valid_shapes_good shapes r (v :: vs')); [done..|].
    by eapply list_elem_of_lookup_2.
  - unfold Machine.get_closest_shape in Hs. by rewrite E in Hs.
Qed.

Lemma get_closest_shape_conforming_witness :
  Machine.is_good_ratio 32 18 (16, 9) = Ok true.
Proof.
  apply (get_closest_shape_conforming [(20, 40)] (16, 9)
           [(9, 16); (18, 32); (27, 48); (36, 64)] 30 20 (18, 32)).
  - simpl. lia.
  - simpl. lia.
  - intros s Hs. apply list_elem_of_In in Hs. simpl in Hs.
    destruct Hs as [<-|[]]. simpl. lia.
  - by vm_compute.
  - by vm_compute.
Defined.

(** X23: for an input and valid shapes with dimensions in [0, 2^31), a
    dividend h * rw in [0, 2^53) and rh > 0, [get_closest_shape] returns
    in machine arithmetic what it returns in exact arithmetic: the test
    of [is_good_ratio] is the exact one and no squared distance wraps. *)
Theorem get_closest_shape_machine (w h : Z) (vs : list shape) (r : ratio) :
  0 ≤ h * r.1 < 2 ^ 53 → 0 < r.2 →
  0 ≤ h < 2 ^ 31 → 0 ≤ w < 2 ^ 31 →
  (∀ t : shape, t ∈ vs → 0 ≤ t.1 < 2 ^ 31 ∧ 0 ≤ t.2 < 2 ^ 31) →
  Machine.get_closest_shape w h vs r = get_closest_shape w h vs r.
Proof.
  intros Ha Hr Hh Hw Hvs. unfold Machine.get_closest_shape, get_closest_shape.
  rewrite machine_is_good_ratio_exact, is_good_ratio_eq by lia.
  rewrite Z.quot_div_nonneg by lia.
  by rewrite (map_sq_dist64_small (h, w) vs).
Qed.

Lemma get_closest_shape_machine_witness :
  Machine.get_closest_shape 1900 1080
    [(1062, 1888); (1071, 1904); (1080, 1920)] (16, 9)
  = get_closest_shape 1900 1080
      [(1062, 1888); (1071, 1904); (1080, 1920)] (16, 9).
Proof.
  apply get_closest_shape_machine; [simpl; lia|simpl; lia|lia|lia|].
  intros t Ht. apply list_elem_of_In in Ht. simpl in Ht.
  destruct Ht as [<-|[<-|[<-|[]]]]; simpl; lia.
Defined.

(** ** A run in machine arithmetic *)

Section MachineRun.

Variable interpolate : image → shape → Z → Z → pixel.

Lemma machine_process_cases (vs : list shape) (r : ratio) (margin : Q)
    (img : image) (filename : string) :
  let h := (img_shape img).1 in
  let w := (img_shape img).2 in
  (Machine.is_good_ratio w h r = Ok true
   ∧ Machine.process interpolate vs r margin (Some img, filename)
     = ([], Ok ()))
  ∨ (∃ img', Machine.is_good_ratio w h r = Ok false
       ∧ Machine.process interpolate vs r margin (Some img, filename)
         = ([(filename, img')], Ok ())
       ∧ image_empty img' = false
       ∧ ((Machine.classify w h r margin = Ok Resizable
           ∧ ∃ s, Machine.get_closest_shape w h vs r = Ok s
                  ∧ img_shape img' = s)
          ∨ (Machine.classify w h r margin = Ok CropRequired
             ∧ ∃ s, get_biggest_shape_contained_in_image (h, w) vs = Ok s
                    ∧ img' = Machine.crop_to img s)))
  ∨ (∃ e, Machine.is_good_ratio w h r ≠ Ok true
       ∧ Machine.process interpolate vs r margin (Some img, filename)
         = ([], Raise e)).
Proof.
  intros h w. unfold Machine.process, Machine.classify.
  destruct (img_shape img) as [h0 w0] eqn:Hshape. subst h w.
  cbn [fst snd].
  destruct (Machine.is_good_ratio w0 h0 r) as [[|]|e] eqn:Hgood; simpl_result.
  - left. by split.
  - destruct (Machine.is_resizable w0 h0 margin r) as [[|]|e]; simpl_result.
    + (* resize *)
      unfold lift, mbind, io_bind, Machine.resize_image. cbn [fst snd app].
      rewrite Hshape.
      destruct (Machine.get_closest_shape w0 h0 vs r) as [s|e] eqn:Hs;
        unfold lift, mbind, io_bind; cbn [fst snd app];
        [|right; right; by exists e].
      destruct (cv2_resize interpolate img (s.2, s.1)) as [img'|e] eqn:Hr;
        cbn [fst snd app]; [|right; right; by exists e].
      unfold imwrite. destruct (image_empty img') eqn:He; cbn [fst snd app].
      * right; right. by exists Cv2Error.
      * right; left. exists img'. split_and!; [done..|].
        left. split; [done|]. exists s. split; [done|].
        unfold cv2_resize in Hr. cbn [fst snd] in Hr.
        destruct (image_empty img || (s.2 <=? 0) || (s.1 <=? 0)); [done|].
        injection Hr as <-. by destruct s.
    + (* crop *)
      unfold lift, mbind, io_bind, Machine.crop_image. cbn [fst snd app].
      rewrite Hshape.
      destruct (get_biggest_shape_contained_in_image (h0, w0) vs)
        as [s|e] eqn:Hs;
        unfold lift, mbind, io_bind; cbn [fst snd app];
        [|right; right; by exists e].
      unfold imwrite.
      destruct (image_empty (Machine.crop_to img s)) eqn:He;
        cbn [fst snd app].
      * right; right. by exists Cv2Error.
      * right; left. exists (Machine.crop_to img s).
        split_and!; [done..|].
        right. split; [done|]. by exists s.
    + right; right. by exists e.
  - right; right. by exists e.
Qed.

(** Within 31 bits the margins of the crop do not wrap. *)
Lemma machine_crop_to_exact (img : image) (new_shape : shape) :
  small_shape (img_shape img) → small_shape new_shape →
  Machine.crop_to img new_shape = crop_to img new_shape.
Proof.
  intros [Ho1 Ho2] [Hn1 Hn2].
  unfold Machine.crop_to, crop_to, Machine.crop_margins, crop_margins.
  cbn [fst snd]. by rewrite !wrap64_small by lia.
Qed.

(** The shapes that [main] collects are those of the images of the
    directory. *)
Lemma mapM_shape_of_elem (fs : directory) (filenames : list string)
    (shapes : list shape) (s : shape) :
  mapM shape_of (load_images filenames fs) = Ok shapes → s ∈ shapes →
  ∃ f img, fs !! f = Some (Some img) ∧ img_shape img = s.
Proof.
  revert shapes. induction filenames as [|f fns IH]; intros shapes.
  - simpl. intros [= <-]. by intros ?%not_elem_of_nil.
  - simpl. destruct (load_image f fs) as [img|] eqn:Hload; [|done].
    simpl. simpl_result.
    destruct (mapM shape_of (load_images fns fs)) as [shapes'|e] eqn:Hrest;
      [|done].
    intros [= <-] [->|Hin]%elem_of_cons.
    + exists f, img. split; [by apply load_image_Some|done].
    + by apply (IH shapes').
Qed.

Lemma machine_main_cases (fs : directory) (r : ratio) (margin : Q)
    (verbose : bool) :
  let filenames := sorted (listdir fs) in
  let wallpapers := load_images filenames fs in
  ((∃ f, fs !! f = Some None)
   ∧ Machine.main interpolate fs r margin verbose
     = ([], Raise AttributeError))
  ∨ ((None ∉ wallpapers)
     ∧ (∃ shapes,
          mapM shape_of wallpapers = Ok shapes
          ∧ ((∃ e, Machine.compute_all_valid_shapes shapes r = Raise e
                   ∧ Machine.main interpolate fs r margin verbose
                     = ([], Raise e))
             ∨ (∃ vs, Machine.compute_all_valid_shapes shapes r = Ok vs
                      ∧ Machine.main interpolate fs r margin verbose
                        = for_each (zip wallpapers filenames)
                            (Machine.process interpolate vs r margin))))).
Proof.
  intros filenames wallpapers. unfold Machine.main.
  fold filenames wallpapers.
  destruct (mapM_shape_of_cases wallpapers) as [[Hin Hr]|[Hnin [shapes Hs]]].
  - left. split; [by apply load_images_None|]. by rewrite Hr.
  - right. split; [done|]. exists shapes. split; [done|]. rewrite Hs.
    unfold lift, mbind, io_bind. cbn [fst snd app].
    destruct (Machine.compute_all_valid_shapes shapes r) as [vs|e].
    + right. exists vs. split; [done|]. cbn [fst snd app].
      by destruct (for_each _ _).
    + left. by exists e.
Qed.

Lemma machine_main_write_inv (fs : directory) (r : ratio) (margin : Q)
    (verbose : bool) (f : string) (img' : image) :
  (f, img') ∈ (Machine.main interpolate fs r margin verbose).1 →
  ∃ shapes vs img,
    mapM shape_of (load_images (sorted (listdir fs)) fs) = Ok shapes
    ∧ Machine.compute_all_valid_shapes shapes r = Ok vs
    ∧ fs !! f = Some (Some img)
    ∧ Machine.process interpolate vs r margin (Some img, f)
      = ([(f, img')], Ok ()).
Proof.
  intros Hin.
  destruct (machine_main_cases fs r margin verbose)
    as [[_ Hm]|(_ & shapes & Hshapes & [(e & _ & Hm)|(vs & Hvs & Hm)])];
    rewrite Hm in Hin; [by apply not_elem_of_nil in Hin..|].
  destruct (for_each_turns
              (zip (load_images (sorted (listdir fs)) fs) (sorted (listdir fs)))
              (Machine.process interpolate vs r margin)) as (k & Hk & _).
  rewrite Hk in Hin.
  apply elem_of_concat in Hin as (tr & Hin & Htr).
  apply elem_of_map in Htr as ([wallpaper fn] & -> & Hitem).
  apply items_lookup in Hitem as [Hfn ->].
  destruct (load_image fn fs) as [img|] eqn:Hload;
    [|by apply not_elem_of_nil in Hin].
  exists shapes, vs, img.
  destruct (machine_process_cases vs r margin img fn)
    as [[_ Hp]|[(img'' & _ & Hp & _)|(e & _ & Hp)]];
    rewrite Hp in Hin; [by apply not_elem_of_nil in Hin| |
                          by apply not_elem_of_nil in Hin].
  apply list_elem_of_singleton in Hin. injection Hin as -> ->.
  split_and!; [done|done| |done]. by apply load_image_Some.
Qed.

Lemma machine_main_ok_turn (fs : directory) (r : ratio) (margin : Q)
    (verbose : bool) (f : string) (img : image) :
  (Machine.main interpolate fs r margin verbose).2 = Ok () →
  fs !! f = Some (Some img) →
  ∃ vs,
    (Machine.process interpolate vs r margin (Some img, f)).2 = Ok ()
    ∧ ∀ fw, fw ∈ (Machine.process interpolate vs r margin (Some img, f)).1 →
            fw ∈ (Machine.main interpolate fs r margin verbose).1.
Proof.
  intros Hok Hf.
  destruct (machine_main_cases fs r margin verbose)
    as [[_ Hm]|(_ & shapes & _ & [(e & _ & Hm)|(vs & Hvs & Hm)])];
    rewrite Hm in *; [done..|].
  destruct (for_each_turns
              (zip (load_images (sorted (listdir fs)) fs) (sorted (listdir fs)))
              (Machine.process interpolate vs r margin)) as (_ & _ & Hall).
  destruct (Hall Hok) as [Htr Hturns].
  assert (Hitem : (Some img, f)
            ∈ zip (load_images (sorted (listdir fs)) fs) (sorted (listdir fs))).
  { rewrite <- (proj2 (load_image_Some fs f img) Hf).
    apply zip_load_images_elem, elem_of_filenames. by rewrite Hf. }
  exists vs. split; [by apply Hturns|].
  intros fw Hfw. rewrite Htr. apply elem_of_concat.
  eexists. split; [exact Hfw|].
  apply elem_of_map. by exists (Some img, f).
Qed.

(** A directory of images that pass the test is not written at all. *)
Lemma machine_main_all_conforming (fs : directory) (r : ratio) (margin : Q)
    (verbose : bool) :
  (∀ filename img, fs !! filename = Some (Some img) →
     Machine.is_good_ratio (img_shape img).2 (img_shape img).1 r = Ok true) →
  (Machine.main interpolate fs r margin verbose).1 = [].
Proof.
  intros Hall.
  destruct (Machine.main interpolate fs r margin verbose).1
    as [|[f img'] tr] eqn:Htr; [done|exfalso].
  assert (Hfw : (f, img') ∈ (Machine.main interpolate fs r margin verbose).1)
    by (rewrite Htr; left).
  apply machine_main_write_inv in Hfw as (shapes & vs & img & _ & _ & Hf & Hp).
  destruct (machine_process_cases vs r margin img f)
    as [[_ Hp']|[(img'' & Hgood & _)|(e & _ & Hp')]].
  - by rewrite Hp' in Hp.
  - by rewrite (Hall f img Hf) in Hgood.
  - by rewrite Hp' in Hp.
Qed.

(** What the turn of a resized image writes passes the test of
    [is_good_ratio]. *)
Lemma machine_process_resized_good (shapes vs : list shape) (r : ratio)
    (margin : Q) (img img' : image) (f : string) :
  0 < r.1 < 2 ^ 22 → 0 < r.2 < 2 ^ 22 →
  (∀ s : shape, s ∈ shapes → 0 ≤ s.1 < 2 ^ 31 ∧ 0 ≤ s.2 < 2 ^ 31) →
  Machine.compute_all_valid_shapes shapes r = Ok vs →
  Machine.classify (img_shape img).2 (img_shape img).1 r margin
  ≠ Ok CropRequired →
  Machine.process interpolate vs r margin (Some img, f)
  = ([(f, img')], Ok ()) →
  Machine.is_good_ratio (img_shape img').2 (img_shape img').1 r = Ok true.
Proof.
  intros H1 H2 Hdim Hvs Hnc Hp.
  destruct (machine_process_cases vs r margin img f)
    as [[_ Hp']|[(img'' & Hgood & Hp' & _ & Hkind)|(e & _ & Hp')]];
    rewrite Hp' in Hp; [done| |done].
  injection Hp as ->.
  destruct Hkind as [(_ & s & Hs & <-)|[Hc _]]; [|done].
  destruct vs as [|v vs'] eqn:Heq.
  { unfold Machine.get_closest_shape in Hs. by rewrite Hgood in Hs. }
  destruct (machine_get_closest_shape_scan _ _ (v :: vs') r Hgood)
    as (k & s' & Hs' & Hk & _); [done|].
  rewrite Hs' in Hs. injection Hs as ->.
  apply (machine_valid_shapes_good shapes r (v :: vs')); [done..|].
  by eapply list_elem_of_lookup_2.
Qed.

(** X13: [resize_image] either writes one image, to the file itself, and
    returns, or raises without a write.  For an image and a non-empty
    sequence of valid shapes with dimensions in (0, 2^31), a ratio with
    rh <> 0 and h * rw below 2^1023 in absolute value it does write, an
    image of the shape that [get_closest_shape] selects. *)
Theorem resize_image_writes_once (filename : string) (img : image)
    (vs : list shape) (r : ratio) :
  ((∃ img', Machine.resize_image interpolate filename img vs r
            = ([(filename, img')], Ok ()))
   ∨ (∃ e, Machine.resize_image interpolate filename img vs r
           = ([], Raise e)))
  ∧ (0 < (img_shape img).1 < 2 ^ 31 → 0 < (img_shape img).2 < 2 ^ 31 →
     r.2 ≠ 0 → Z.abs ((img_shape img).1 * r.1) < 2 ^ 1023 → vs ≠ [] →
     (∀ v : shape, v ∈ vs → 0 < v.1 < 2 ^ 31 ∧ 0 < v.2 < 2 ^ 31) →
     ∃ s img',
       Machine.get_closest_shape (img_shape img).2 (img_shape img).1 vs r
       = Ok s
       ∧ Machine.resize_image interpolate filename img vs r
         = ([(filename, img')], Ok ())
       ∧ img_shape img' = s).
Proof.
  unfold Machine.resize_image. destruct (img_shape img) as [h w] eqn:Hshape.
  cbn [fst snd]. split.
  - destruct (Machine.get_closest_shape w h vs r) as [s|e];
      [|right; by exists e].
    unfold lift, mbind, io_bind. cbn [fst snd].
    destruct (cv2_resize interpolate img (s.2, s.1)) as [img'|e];
      [|right; by exists e].
    cbn [fst snd]. unfold imwrite. destruct (image_empty img').
    + right. by exists Cv2Error.
    + left. by exists img'.
  - intros Hh Hw Hr Ha Hne Hpos.
    assert (Hs : ∃ s : shape, Machine.get_closest_shape w h vs r = Ok s
                              ∧ 0 < s.1 ∧ 0 < s.2).
    { destruct (Machine.is_good_ratio w h r) as [[|]|e] eqn:E.
      - exists (h, w). unfold Machine.get_closest_shape. rewrite E.
        split; [done|simpl; lia].
      - destruct (machine_get_closest_shape_scan w h vs r E Hne)
          as (k & s & Hs & Hk & _).
        exists s. split; [done|].
        destruct (Hpos s); [by eapply list_elem_of_lookup_2|lia].
      - unfold Machine.is_good_ratio in E.
        by rewrite (machine_true_div_ok _ _ 1023) in E by lia. }
    destruct Hs as (s & Hs & Hs1 & Hs2). rewrite Hs.
    unfold lift, mbind, io_bind, cv2_resize, image_empty.
    cbn [fst snd]. rewrite Hshape. cbn [fst snd].
    destruct (Z.leb_spec h 0); [lia|]. destruct (Z.leb_spec w 0); [lia|].
    destruct (Z.leb_spec s.2 0); [lia|]. destruct (Z.leb_spec s.1 0); [lia|].
    cbn [orb fst snd]. unfold imwrite, image_empty. cbn [img_shape fst snd].
    destruct (Z.leb_spec s.1 0); [lia|]. destruct (Z.leb_spec s.2 0); [lia|].
    cbn [orb fst snd app]. eexists s, _. split_and!; [done|reflexivity|].
    by destruct s.
Qed.

(** X17: for a ratio with components in (0, 2^22) and a directory of images
    with dimensions in [0, 2^31), in any run the image written for an
    entry that is classified [Resizable] passes [is_good_ratio]. *)
Theorem main_resized_conforming (fs : directory) (r : ratio) (margin : Q)
    (verbose : bool) (f : string) (img img' : image) :
  0 < r.1 < 2 ^ 22 → 0 < r.2 < 2 ^ 22 →
  (∀ f img, fs !! f = Some (Some img) →
     0 ≤ (img_shape img).1 < 2 ^ 31 ∧ 0 ≤ (img_shape img).2 < 2 ^ 31) →
  fs !! f = Some (Some img) →
  Machine.classify (img_shape img).2 (img_shape img).1 r margin
  = Ok Resizable →
  (f, img') ∈ (Machine.main interpolate fs r margin verbose).1 →
  Machine.is_good_ratio (img_shape img').2 (img_shape img').1 r = Ok true.
Proof.
  intros H1 H2 Hdim Hf Hkind Hin.
  apply machine_main_write_inv in Hin
    as (shapes & vs & img0 & Hshapes & Hvs & Hf0 & Hp).
  assert (img0 = img) as -> by congruence.
  eapply (machine_process_resized_good shapes vs);
    [done|done| |exact Hvs| |exact Hp].
  - intros s Hs.
    destruct (mapM_shape_of_elem _ _ _ s Hshapes Hs) as (f' & i & Hi & <-).
    by eapply Hdim.
  - by rewrite Hkind.
Qed.

(** X18: for a ratio with components in (0, 2^22) and a directory of images
    with dimensions in [0, 2^31): after a run that returns on a directory
    none of whose images is classified [CropRequired], every image passes
    [is_good_ratio], and a second run writes nothing. *)
Theorem main_second_run (fs : directory) (r : ratio) (margin : Q)
    (verbose : bool) :
  0 < r.1 < 2 ^ 22 → 0 < r.2 < 2 ^ 22 →
  (∀ f img, fs !! f = Some (Some img) →
     0 ≤ (img_shape img).1 < 2 ^ 31 ∧ 0 ≤ (img_shape img).2 < 2 ^ 31) →
  (Machine.main interpolate fs r margin verbose).2 = Ok () →
  (∀ f img, fs !! f = Some (Some img) →
     Machine.classify (img_shape img).2 (img_shape img).1 r margin
     ≠ Ok CropRequired) →
  let fs' := apply_writes (Machine.main interpolate fs r margin verbose).1 fs
  in
  (∀ f img, fs' !! f = Some (Some img) →
     Machine.is_good_ratio (img_shape img).2 (img_shape img).1 r = Ok true)
  ∧ (Machine.main interpolate fs' r margin verbose).1 = [].
Proof.
  intros H1 H2 Hdim Hok Hnc fs'.
  assert (Hall : ∀ f img, fs' !! f = Some (Some img) →
            Machine.is_good_ratio (img_shape img).2 (img_shape img).1 r
            = Ok true).
  { intros f img' Hf'.
    apply apply_writes_lookup in Hf' as [(img'' & Hin & [= <-])|[Hf Hno]].
    - apply machine_main_write_inv in Hin
        as (shapes & vs & img & Hshapes & Hvs & Hf & Hp).
      eapply (machine_process_resized_good shapes vs);
        [done|done| |exact Hvs|by eapply Hnc|exact Hp].
      intros s Hs.
      destruct (mapM_shape_of_elem _ _ _ s Hshapes Hs) as (f' & i & Hi & <-).
      by eapply Hdim.
    - destruct (machine_main_ok_turn fs r margin verbose f img' Hok Hf)
        as (vs & Hturn & Hsub).
      destruct (machine_process_cases vs r margin img' f)
        as [[Hgood _]|[(img'' & _ & Hp & _)|(e & _ & Hp)]];
        rewrite ?Hp in *; [done| |done].
      exfalso. apply (Hno (f, img'')); [|done]. apply Hsub. left. }
  split; [done|]. by apply machine_main_all_conforming.
Qed.

(** X24: on a directory whose images all have the width
    floor(h * rw / rh), with h * rw below 2^53, a run in machine
    arithmetic makes no call of [cv2.imwrite], however it ends; the
    directory is the same afterwards, and so a second run makes none
    either. *)
Theorem main_conforming_no_writes_machine
    (fs : directory) (rw rh : Z) (margin : Q) (verbose : bool) :
  0 < rw → 0 < rh →
  (∀ filename img, fs !! filename = Some (Some img) →
     0 ≤ (img_shape img).1 ∧ (img_shape img).1 * rw < 2 ^ 53
     ∧ (img_shape img).2 = (img_shape img).1 * rw / rh) →
  (Machine.main interpolate fs (rw, rh) margin verbose).1 = []
  ∧ apply_writes (Machine.main interpolate fs (rw, rh) margin verbose).1 fs
    = fs
  ∧ (Machine.main interpolate
       (apply_writes (Machine.main interpolate fs (rw, rh) margin verbose).1
          fs)
       (rw, rh) margin verbose).1 = [].
Proof.
  intros Hrw Hrh Hall.
  assert (Hnone : (Machine.main interpolate fs (rw, rh) margin verbose).1
                  = []).
  { apply machine_main_all_conforming. intros filename img Hfile.
    destruct (Hall filename img Hfile) as (Hh & Hb & Hw).
    rewrite machine_is_good_ratio_exact by (simpl; lia). cbn [fst snd].
    by rewrite Hw, Z.eqb_refl. }
  rewrite Hnone. done.
Qed.

End MachineRun.

Lemma resize_image_writes_once_witness :
  ∃ s img',
    Machine.get_closest_shape 1900 1080 (multiples 213 (16, 9)) (16, 9) = Ok s
    ∧ Machine.resize_image (fun src _ i j => img_at src i j) "b.png"
        (Image (1080, 1900) (fun i j => (i, j, 0)))
        (multiples 213 (16, 9)) (16, 9)
      = ([("b.png", img')], Ok ())
    ∧ img_shape img' = s.
Proof.
  destruct (resize_image_writes_once (fun src _ i j => img_at src i j)
              "b.png" (Image (1080, 1900) (fun i j => (i, j, 0)))
              (multiples 213 (16, 9)) (16, 9)) as [_ H].
  apply H; [simpl; lia|simpl; lia|simpl; lia|simpl; lia|discriminate|].
  intros v [i Hi]%list_elem_of_lookup_1.
  apply multiples_lookup in Hi as [-> ?]. simpl. lia.
Defined.

Lemma two_images_small (f : string) (img : image) :
  (<["a.png" := Some (Image (1080, 1920) (fun i j => (i, j, 0)))]>
     (<["b.png" := Some (Image (1080, 1900) (fun i j => (j, i, 0)))]> ∅)
   : directory) !! f = Some (Some img) →
  0 ≤ (img_shape img).1 < 2 ^ 31 ∧ 0 ≤ (img_shape img).2 < 2 ^ 31.
Proof.
  intros [[_ ->]|[_ ->]]%two_images_lookup; simpl; lia.
Defined.

Lemma main_second_run_witness :
  (Machine.main (fun src _ i j => img_at src i j)
     (apply_writes
        (Machine.main (fun src _ i j => img_at src i j)
           (<["a.png" := Some (Image (1080, 1920) (fun i j => (i, j, 0)))]>
              (<["b.png" := Some (Image (1080, 1900)
                                    (fun i j => (j, i, 0)))]> ∅))
           (16, 9) (1 # 5) false).1
        (<["a.png" := Some (Image (1080, 1920) (fun i j => (i, j, 0)))]>
           (<["b.png" := Some (Image (1080, 1900) (fun i j => (j, i, 0)))]>
              ∅)))
     (16, 9) (1 # 5) false).1 = [].
Proof.
  apply (main_second_run (fun src _ i j => img_at src i j)
           (<["a.png" := Some (Image (1080, 1920) (fun i j => (i, j, 0)))]>
              (<["b.png" := Some (Image (1080, 1900)
                                    (fun i j => (j, i, 0)))]> ∅))
           (16, 9) (1 # 5) false).
  - simpl. lia.
  - simpl. lia.
  - apply two_images_small.
  - by vm_compute.
  - intros f img [[_ ->]|[_ ->]]%two_images_lookup; by vm_compute.
Defined.

Lemma main_resized_conforming_witness :
  Machine.is_good_ratio 1904 1071 (16, 9) = Ok true.
Proof.
  apply (main_resized_conforming (fun src _ i j => img_at src i j)
           (<["a.png" := Some (Image (1080, 1920) (fun i j => (i, j, 0)))]>
              (<["b.png" := Some (Image (1080, 1900)
                                    (fun i j => (j, i, 0)))]> ∅))
           (16, 9) (1 # 5) false "b.png"
           (Image (1080, 1900) (fun i j => (j, i, 0)))
           (Image (1071, 1904) (fun i j => (j, i, 0)))).
  - simpl. lia.
  - simpl. lia.
  - apply two_images_small.
  - by vm_compute.
  - by vm_compute.
  - vm_compute. left.
Defined.

Lemma main_conforming_no_writes_machine_witness :
  (Machine.main (fun src _ i j => img_at src i j)
     (<["a.png" := Some (Image (1000, 1777) (fun i j => (i, j, 0)))]>
        (<["b.png" := Some (Image (720, 1280) (fun i j => (j, i, 0)))]> ∅))
     (16, 9) (1 # 5) false).1 = [].
Proof.
  assert (Hall : ∀ filename img,
    (<["a.png" := Some (Image (1000, 1777) (fun i j => (i, j, 0)))]>
       (<["b.png" := Some (Image (720, 1280) (fun i j => (j, i, 0)))]> ∅)
     : directory) !! filename = Some (Some img) →
    0 ≤ (img_shape img).1 ∧ (img_shape img).1 * 16 < 2 ^ 53
    ∧ (img_shape img).2 = (img_shape img).1 * 16 / 9).
  { intros filename img Hfile.
    destruct (decide (filename = "a.png")) as [->|Ha].
    - rewrite lookup_insert_eq in Hfile. injection Hfile as <-.
      split_and!; [cbn; lia|cbn; lia|reflexivity].
    - rewrite lookup_insert_ne in Hfile by done.
      destruct (decide (filename = "b.png")) as [->|Hb].
      + rewrite lookup_insert_eq in Hfile. injection Hfile as <-.
        split_and!; [cbn; lia|cbn; lia|reflexivity].
      + rewrite lookup_insert_ne in Hfile by done.
        by rewrite lookup_empty in Hfile. }
  assert (Hrw : 0 < 16) by lia.
  assert (Hrh : 0 < 9) by lia.
  exact (proj1 (main_conforming_no_writes_machine
                  (fun src _ i j => img_at src i j)
                  _ 16 9 (1 # 5) false Hrw Hrh Hall)).
Defined.

(** X22: for a dividend h * rw in [0, 2^53) and rh > 0 the test of
    [is_good_ratio] on the rounded quotient is the test on the exact
    one. *)
Theorem is_good_ratio_machine (w h : Z) (r : ratio) :
  0 ≤ h * r.1 < 2 ^ 53 → 0 < r.2 →
  Machine.is_good_ratio w h r = is_good_ratio w h r.
Proof.
  intros Ha Hr. rewrite machine_is_good_ratio_exact, is_good_ratio_eq by lia.
  by rewrite Z.quot_div_nonneg by lia.
Qed.

Lemma is_good_ratio_machine_witness :
  Machine.is_good_ratio 1777 1000 (16, 9) = is_good_ratio 1777 1000 (16, 9).
Proof. apply is_good_ratio_machine; simpl; lia. Defined.

(** The run of the three scenarios in machine arithmetic, with the
    margin 0.2 as a float: the same writes as in exact arithmetic. *)
Example machine_scenario_run :
  let img h w := Some (Image (h, w) (fun i j => (i, j, 0))) in
  let fs : directory :=
    <["c.png" := img 1000 1000]>
      (<["b.png" := img 1080 1900]> (<["a.png" := img 1080 1920]> ∅)) in
  let run :=
    Machine.main (fun src _ i j => img_at src i j) fs (16, 9)
      (3602879701896397 # 18014398509481984) false in
  map (fun fw : string * image => (fw.1, img_shape fw.2)) run.1
    = [("b.png", (1071, 1904)); ("c.png", (558, 992))]
  ∧ run.2 = Ok ().
Proof. vm_compute. done. Qed.

(** Where the two readings of [is_resizable] part: for an image of 89x45
    the exact difference of the proportions is 1/5, below the float 0.2,
    and the difference of the two rounded quotients is above it. *)
Example machine_is_resizable_rounds :
  Machine.is_resizable 89 45 (3602879701896397 # 18014398509481984) (16, 9)
  = Ok false
  ∧ is_resizable 89 45 (3602879701896397 # 18014398509481984) (16, 9)
    = Ok true.
Proof. split; by vm_compute. Qed.
